(** * Two-stream memory benchmark: Unified vs Split stores

    A shallow embedding of [two_stream_ver01.py]: the dataset generator
    [gen_ds], the two memory layouts [Unified] and [Split], and the latency
    runner [run], followed by the properties the specification states about
    them.

    Conventions.
    - Python [int] is [Z]; Python [float] is an IEEE-754 binary64 value,
      [spec_float] with precision 53 and maximal exponent 1024.
    - A Python [dict] is a [gmap]; a dict comprehension inserts its items
      from left to right, so a later item overrides an earlier one.
    - A raised exception is the [Raise] alternative of [result].
    - [random.Random] and [time.perf_counter_ns] belong to the Python
      runtime, not to the program: they are parameters ([RandomSource],
      [MonotonicClock]) threaded through the code as explicit state.
    - Every subscription [d[k]] on a table of a store is recorded in an
      access log, the counting wrapper the specification refers to.
    - Every effect of a run (a draw, a reading of the clock, a call on the
      store) is recorded in a trace, in the order in which it happens. *)

From Stdlib Require Import ZArith Lia List Ascii String DecimalString.
From Stdlib Require Import DecimalN DecimalPos.
From Stdlib Require Import Floats.SpecFloat.
From stdpp Require Import base option list list_numbers gmap sets strings.

Local Open Scope Z_scope.

(** ** Exceptions and results *)

Inductive exn : Type :=
| KeyError
| ValueError
| IndexError
| ZeroDivisionError
| OverflowError.

Inductive result (A : Type) : Type :=
| Ok (a : A)
| Raise (e : exn).

Arguments Ok {A} a.
Arguments Raise {A} e.

Definition is_ok {A} (r : result A) : bool :=
  match r with Ok _ => true | Raise _ => false end.

(** ** Python floats *)

Definition prec64 : Z := 53.
Definition emax64 : Z := 1024.

Definition float_of_int (z : Z) : spec_float :=
  binary_normalize prec64 emax64 z 0 false.

Definition float_lt (x y : spec_float) : bool := SFltb x y.
Definition float_le (x y : spec_float) : bool := SFleb x y.
Definition float_add (x y : spec_float) : spec_float := SFadd prec64 emax64 x y.

Definition float_zero : spec_float := S754_zero false.
Definition float_one : spec_float := Eval vm_compute in float_of_int 1.

(** [a / b] on two ints.  The operands are not converted first: the
    result is the float nearest to the exact quotient, ties to even.
    [ZeroDivisionError] on a zero divisor, [OverflowError] when the rounded
    quotient is outside the range of a float; a zero dividend gives a zero
    that carries the sign of the divisor. *)
Definition int_truediv (a b : Z) : result spec_float :=
  if b =? 0 then Raise ZeroDivisionError
  else
    let negate := xorb (a <? 0) (b <? 0) in
    if a =? 0 then Ok (S754_zero negate)
    else
      let '(q, e, l) :=
        SFdiv_core_binary prec64 emax64 (Z.abs a) 0 (Z.abs b) 0 in
      match binary_round_aux prec64 emax64 negate q e l with
      | S754_infinity _ => Raise OverflowError
      | x => Ok x
      end.

(** [x / b] with a float on the left and an int on the right: the int is
    converted ([OverflowError] when it is too large for a float), then the
    floats are divided. *)
Definition float_truediv_int (x : spec_float) (b : Z) : result spec_float :=
  match float_of_int b with
  | S754_infinity _ => Raise OverflowError
  | y =>
    if b =? 0 then Raise ZeroDivisionError
    else Ok (SFdiv prec64 emax64 x y)
  end.

(** ** Dictionaries and the access log *)

(** The five tables of the two layouts. *)
Inductive table : Type :=
| T_id_map
| T_coord_map
| T_where
| T_what
| T_idx.

(** A computation that reads tables: the log of the tables it subscripted,
    in order, and its outcome. *)
Definition Acc (A : Type) : Type := (list table * result A)%type.

Definition acc_ret {A} (a : A) : Acc A := ([], Ok a).

Definition acc_bind {A B} (m : Acc A) (k : A → Acc B) : Acc B :=
  match m with
  | (log, Ok a) => let '(log', r) := k a in (log ++ log', r)
  | (log, Raise e) => (log, Raise e)
  end.

Definition accesses {A} (m : Acc A) : list table := fst m.
Definition value {A} (m : Acc A) : result A := snd m.

Declare Scope acc_scope.
Delimit Scope acc_scope with acc.
Notation "'let!' x ':=' m 'in' k" := (acc_bind m (fun x => k))
  (at level 10, x name, m at level 200, k at level 200) : acc_scope.

(** [{k: v for ... in items}]: items are inserted left to right. *)
Definition dict_of `{Countable K} {V} (items : list (K * V)) : gmap K V :=
  fold_left (fun d kv => <[kv.1 := kv.2]> d) items ∅.

(** [d[k]] on table [t]: one recorded access; [KeyError] if [k] is absent. *)
Definition dict_get `{Countable K} {V} (t : table) (d : gmap K V) (k : K) : Acc V :=
  ([t], match d !! k with Some v => Ok v | None => Raise KeyError end).

(** ** Data model *)

Definition coord : Type := (Z * Z)%type.

(** One row of the dataset: [(oid, c, f)]. *)
Definition record : Type := (Z * coord * string)%type.

Definition rec_oid (r : record) : Z := r.1.1.
Definition rec_coord (r : record) : coord := r.1.2.
Definition rec_label (r : record) : string := r.2.

Definition oids (ds : list record) : list Z := rec_oid <$> ds.
Definition coords_of (ds : list record) : list coord := rec_coord <$> ds.

Definition FEATURE_PAD : nat := 128.

Fixpoint string_repeat (n : nat) (ch : ascii) : string :=
  match n with
  | O => EmptyString
  | S n' => String ch (string_repeat n' ch)
  end.

(** [s.ljust(width, fill)] *)
Definition ljust (s : string) (width : nat) (fill : ascii) : string :=
  (s ++ string_repeat (width - String.length s) fill)%string.

Definition zfill (width : nat) (s : string) : string :=
  (string_repeat (width - String.length s) "0"%char ++ s)%string.

(** [f"{z:07d}"]: decimal, zero-padded to seven characters, sign included. *)
Definition format_07d (z : Z) : string :=
  let digits := NilZero.string_of_uint (N.to_uint (Z.abs_N z)) in
  if z <? 0 then ("-" ++ zfill 6 digits)%string else zfill 7 digits.

(** [f"obj{object_id:07d}".ljust(FEATURE_PAD, "X")] *)
Definition feature (object_id : Z) : string :=
  ljust ("obj" ++ format_07d object_id)%string FEATURE_PAD "X"%char.

(** ** The Unified layout *)

Record Unified : Type := mkUnified {
  id_map : gmap Z (coord * string);
  coord_map : gmap coord (Z * string)
}.

(** [Unified.__init__] *)
Definition Unified_init (ds : list record) : Unified :=
  {| id_map := dict_of ((fun '(oid, c, f) => (oid, (c, f))) <$> ds);
     coord_map := dict_of ((fun '(oid, c, f) => (c, (oid, f))) <$> ds) |}.

Definition Unified_oid_to_coord (self : Unified) (oid : Z) : Acc coord :=
  (let! e := dict_get T_id_map (id_map self) oid in
   acc_ret e.1)%acc.

Definition Unified_coord_to_oid (self : Unified) (c : coord) : Acc Z :=
  (let! e := dict_get T_coord_map (coord_map self) c in
   acc_ret e.1)%acc.

Definition Unified_full_lookup (self : Unified) (oid : Z) : Acc (coord * string) :=
  dict_get T_id_map (id_map self) oid.

(** ** The Split layout *)

Record Split : Type := mkSplit {
  where_ : gmap Z coord;
  what : gmap Z string;
  idx : gmap coord Z
}.

(** [Split.__init__] *)
Definition Split_init (ds : list record) : Split :=
  {| where_ := dict_of ((fun '(oid, c, _) => (oid, c)) <$> ds);
     what := dict_of ((fun '(oid, _, f) => (oid, f)) <$> ds);
     idx := dict_of ((fun '(oid, c, _) => (c, oid)) <$> ds) |}.

Definition Split_oid_to_coord (self : Split) (oid : Z) : Acc coord :=
  dict_get T_where (where_ self) oid.

Definition Split_coord_to_oid (self : Split) (c : coord) : Acc Z :=
  dict_get T_idx (idx self) c.

(** The join of the two tables, followed by the integrity check: the
    reverse index is consulted and the id it gives is looked up in [what];
    the value of that last lookup is discarded. *)
Definition Split_full_lookup (self : Split) (oid : Z) : Acc (coord * string) :=
  (let! c := dict_get T_where (where_ self) oid in
   let! f := dict_get T_what (what self) oid in
   let! oid_2 := dict_get T_idx (idx self) c in
   let! _ := dict_get T_what (what self) oid_2 in
   acc_ret (c, f))%acc.

(** ** The common interface *)

Class Store (T : Type) : Type := {
  oid_to_coord : T → Z → Acc coord;
  coord_to_oid : T → coord → Acc Z;
  full_lookup : T → Z → Acc (coord * string)
}.

#[global] Instance Unified_Store : Store Unified :=
  {| oid_to_coord := Unified_oid_to_coord;
     coord_to_oid := Unified_coord_to_oid;
     full_lookup := Unified_full_lookup |}.

#[global] Instance Split_Store : Store Split :=
  {| oid_to_coord := Split_oid_to_coord;
     coord_to_oid := Split_coord_to_oid;
     full_lookup := Split_full_lookup |}.

(** [Union[Unified, Split]] *)
Inductive Mem : Type :=
| MUnified (u : Unified)
| MSplit (s : Split).

#[global] Instance Mem_Store : Store Mem :=
  {| oid_to_coord := fun mem =>
       match mem with MUnified u => oid_to_coord u | MSplit s => oid_to_coord s end;
     coord_to_oid := fun mem =>
       match mem with MUnified u => coord_to_oid u | MSplit s => coord_to_oid s end;
     full_lookup := fun mem =>
       match mem with MUnified u => full_lookup u | MSplit s => full_lookup s end |}.

(** The layout chosen by [one] from its [model_kind] argument. *)
Inductive arch : Type := ArchUnified | ArchSplit.

Definition arch_of_string (model_kind : string) : result arch :=
  if String.eqb model_kind "Unified" then Ok ArchUnified
  else if String.eqb model_kind "Split" then Ok ArchSplit
  else Raise ValueError.

Definition build (a : arch) (ds : list record) : Mem :=
  match a with
  | ArchUnified => MUnified (Unified_init ds)
  | ArchSplit => MSplit (Split_init ds)
  end.

(** ** Well-formed datasets and the grid *)

(** What the stores rely on: ids are [0 .. n-1] in order, coordinates are
    pairwise distinct, and every label is the feature string of its id. *)
Record well_formed (n : Z) (ds : list record) : Prop := {
  wf_oids : oids ds = seqZ 0 n;
  wf_coords : NoDup (coords_of ds);
  wf_labels : Forall (fun r => rec_label r = feature (rec_oid r)) ds
}.

(** The square [0 .. grid] x [0 .. grid]. *)
Definition in_grid (grid : Z) (c : coord) : Prop :=
  0 ≤ c.1 ≤ grid ∧ 0 ≤ c.2 ≤ grid.

(** The cells of the square, row by row: cell number [i] is
    [(i / (grid+1), i mod (grid+1))]. *)
Definition cell (grid : Z) (i : Z) : coord := (i / (grid + 1), i mod (grid + 1)).

Definition cells (grid : Z) : list coord :=
  cell grid <$> seqZ 0 ((grid + 1) * (grid + 1)).

(** ** The random source

    [random.Random] is the interpreter's generator.  Its state and its two
    primitive draws are parameters: [randbelow k] is a draw from
    [0 .. k-1] and [random] a float draw from the unit interval; [Random]
    builds the state from a seed. *)

Class RandomSource : Type := {
  Rng : Type;
  Random : Z → Rng;
  randbelow : Z → Rng → Z * Rng;
  random : Rng → spec_float * Rng
}.

(** What the library promises about the two draws. *)
Definition randbelow_in_range `{RandomSource} : Prop :=
  ∀ k s, 0 < k → 0 ≤ (randbelow k s).1 < k.

Definition in_unit_interval (r : spec_float) : Prop :=
  float_le float_zero r = true ∧ float_lt r float_one = true.

(** ** The clock: [time.perf_counter_ns] *)

Class MonotonicClock : Type := {
  Clock : Type;
  perf_counter_ns : Clock → Z * Clock
}.

Section Program.
Context `{RandomSource} `{MonotonicClock}.

(** [rng.randint(a, b)]: an int of [a .. b]; [ValueError] on an empty range. *)
Definition randint (a b : Z) (s : Rng) : result (Z * Rng) :=
  if b <? a then Raise ValueError
  else let '(k, s') := randbelow (b - a + 1) s in Ok (a + k, s').

(** [rng.choice(seq)]: [IndexError] on an empty sequence. *)
Definition choice {A} (seq : list A) (s : Rng) : result (A * Rng) :=
  match seq with
  | [] => Raise IndexError
  | _ =>
    let '(k, s') := randbelow (Z.of_nat (length seq)) s in
    match seq !! Z.to_nat k with
    | Some x => Ok (x, s')
    | None => Raise IndexError
    end
  end.

(** ** Dataset generation *)

(** The [while True] loop of [gen_ds]: draw a coordinate until one is not
    in [used].  [fuel] bounds the number of draws; [None] means the bound
    was reached with every draw rejected. *)
Fixpoint draw_unused (fuel : nat) (grid : Z) (used : gset coord) (s : Rng)
  : option (result (coord * Rng)) :=
  match fuel with
  | O => None
  | S fuel' =>
    match randint 0 grid s with
    | Raise e => Some (Raise e)
    | Ok (x, s1) =>
      match randint 0 grid s1 with
      | Raise e => Some (Raise e)
      | Ok (y, s2) =>
        let c := (x, y) in
        if decide (c ∈ used) then draw_unused fuel' grid used s2
        else Some (Ok (c, s2))
      end
    end
  end.

(** The [for object_id in range(n)] loop, over the ids still to come, with
    the loop state [used], [rows] and the generator. *)
Fixpoint gen_rows (fuel : nat) (grid : Z) (ids : list Z)
    (used : gset coord) (rows : list record) (s : Rng)
  : option (result (list record * Rng)) :=
  match ids with
  | [] => Some (Ok (rows, s))
  | object_id :: ids' =>
    match draw_unused fuel grid used s with
    | None => None
    | Some (Raise e) => Some (Raise e)
    | Some (Ok (c, s')) =>
      gen_rows fuel grid ids' ({[c]} ∪ used)
               (rows ++ [(object_id, c, feature object_id)]) s'
    end
  end.

Definition gen_ds (fuel : nat) (n grid : Z) (rng : Rng)
  : option (result (list record * Rng)) :=
  gen_rows fuel grid (seqZ 0 n) ∅ [] rng.

(** The coordinates the generator produces, one after the other: a draw
    is the pair of [randint] calls of the loop body; [nth_draw k] is the
    draw made after [k] earlier ones. *)
Definition draw_coord (grid : Z) (s : Rng) : result (coord * Rng) :=
  match randint 0 grid s with
  | Raise e => Raise e
  | Ok (x, s1) =>
    match randint 0 grid s1 with
    | Raise e => Raise e
    | Ok (y, s2) => Ok ((x, y), s2)
    end
  end.

Fixpoint nth_draw (k : nat) (grid : Z) (s : Rng) : result (coord * Rng) :=
  match k with
  | O => draw_coord grid s
  | S k' =>
    match draw_coord grid s with
    | Raise e => Raise e
    | Ok (_, s') => nth_draw k' grid s'
    end
  end.

(** Every cell of the grid keeps being drawn: after any number of draws
    from [s], each cell is drawn again. *)
Definition recurrent (grid : Z) (s : Rng) : Prop :=
  ∀ (j : nat) (c : coord), in_grid grid c →
    ∃ (k : nat) (s' : Rng), nth_draw (j + k) grid s = Ok (c, s').

(** ** The latency runner *)

(** A call on the store interface, as the runner issues it. *)
Inductive query : Type :=
| Q_coord_to_oid (c : coord)
| Q_oid_to_coord (o : Z)
| Q_full_lookup (o : Z).

(** The three classes of the query mix. *)
Inductive query_kind : Type := W2What | What2W | Integrated.

Definition kind_of (q : query) : query_kind :=
  match q with
  | Q_coord_to_oid _ => W2What
  | Q_oid_to_coord _ => What2W
  | Q_full_lookup _ => Integrated
  end.

(** What a run does to the world around it, one event per effect: a float
    draw, a choice from a list, a reading of the clock with the value read,
    a method call on the store. *)
Inductive event : Type :=
| E_random
| E_choice
| E_clock (t : Z)
| E_call (q : query).

(** The state [run] works on: the generator, the clock, and three logs kept
    for observation only: the calls issued on the store, the table accesses
    they made, and the trace of all effects in the order they happened. *)
Record RunState : Type := mkRunState {
  st_rng : Rng;
  st_clock : Clock;
  st_calls : list query;
  st_accesses : list table;
  st_trace : list event
}.

Definition Run (A : Type) : Type := RunState → result A * RunState.

Definition run_ret {A} (a : A) : Run A := fun st => (Ok a, st).

Definition run_bind {A B} (m : Run A) (k : A → Run B) : Run B :=
  fun st =>
    match m st with
    | (Ok a, st') => k a st'
    | (Raise e, st') => (Raise e, st')
    end.

Definition run_lift {A} (r : result A) : Run A := fun st => (r, st).

Declare Scope run_scope.
Delimit Scope run_scope with run.
Notation "'let!' x ':=' m 'in' k" := (run_bind m (fun x => k))
  (at level 10, x name, m at level 200, k at level 200) : run_scope.

(** [rng.random()] *)
Definition rng_random : Run spec_float :=
  fun st =>
    let '(r, s') := random (st_rng st) in
    (Ok r, mkRunState s' (st_clock st) (st_calls st) (st_accesses st)
                      (st_trace st ++ [E_random])).

(** [rng.choice(seq)] *)
Definition rng_choice {A} (seq : list A) : Run A :=
  fun st =>
    match choice seq (st_rng st) with
    | Ok (x, s') =>
      (Ok x, mkRunState s' (st_clock st) (st_calls st) (st_accesses st)
                        (st_trace st ++ [E_choice]))
    | Raise e =>
      (Raise e, mkRunState (st_rng st) (st_clock st) (st_calls st)
                           (st_accesses st) (st_trace st ++ [E_choice]))
    end.

(** [nano_clock()] *)
Definition nano_clock : Run Z :=
  fun st =>
    let '(t, c') := perf_counter_ns (st_clock st) in
    (Ok t, mkRunState (st_rng st) c' (st_calls st) (st_accesses st)
                      (st_trace st ++ [E_clock t])).

(** A method call on the store: the call and its table accesses are
    logged, its outcome is the outcome of the method. *)
Definition invoke {A} (q : query) (m : Acc A) : Run A :=
  fun st =>
    (value m,
     mkRunState (st_rng st) (st_clock st)
                (st_calls st ++ [q]) (st_accesses st ++ accesses m)
                (st_trace st ++ [E_call q])).

(** [mix[key]] *)
Definition mix_get (mix : gmap string spec_float) (key : string) : Run spec_float :=
  run_lift (match mix !! key with Some p => Ok p | None => Raise KeyError end).

(** [[mem.oid_to_coord(i) for i in ids]] *)
Fixpoint precompute_coords (mem : Mem) (ids : list Z) : Run (list coord) :=
  match ids with
  | [] => run_ret []
  | i :: ids' =>
    (let! c := invoke (Q_oid_to_coord i) (oid_to_coord mem i) in
     let! cs := precompute_coords mem ids' in
     run_ret (c :: cs))%run
  end.

(** One iteration of the query loop; the result is the new value of [acc]. *)
Definition run_query (mem : Mem) (mix : gmap string spec_float)
    (ids : list Z) (coords : list coord) (acc : Z) : Run Z :=
  (let! r := rng_random in
   let! w2what := mix_get mix "w2what" in
   if float_lt r w2what then
     let! c := rng_choice coords in
     let! t0 := nano_clock in
     let! _ := invoke (Q_coord_to_oid c) (coord_to_oid mem c) in
     let! t1 := nano_clock in
     run_ret (acc + (t1 - t0))
   else
     let! w2what' := mix_get mix "w2what" in
     let! what2w := mix_get mix "what2w" in
     if float_lt r (float_add w2what' what2w) then
       let! o := rng_choice ids in
       let! t0 := nano_clock in
       let! _ := invoke (Q_oid_to_coord o) (oid_to_coord mem o) in
       let! t1 := nano_clock in
       run_ret (acc + (t1 - t0))
     else
       let! o := rng_choice ids in
       let! t0 := nano_clock in
       let! _ := invoke (Q_full_lookup o) (full_lookup mem o) in
       let! t1 := nano_clock in
       run_ret (acc + (t1 - t0)))%run.

(** [for _ in range(total_queries)], as a count of iterations left. *)
Fixpoint run_loop (iterations : nat) (mem : Mem) (mix : gmap string spec_float)
    (ids : list Z) (coords : list coord) (acc : Z) : Run Z :=
  match iterations with
  | O => run_ret acc
  | S iterations' =>
    (let! acc' := run_query mem mix ids coords acc in
     run_loop iterations' mem mix ids coords acc')%run
  end.

(** [len(mem.where)] for a [Split], [len(mem.id_map)] otherwise. *)
Definition mem_size (mem : Mem) : Z :=
  match mem with
  | MSplit s => Z.of_nat (size (where_ s))
  | MUnified u => Z.of_nat (size (id_map u))
  end.

Definition run (mem : Mem) (total_queries : Z) (mix : gmap string spec_float)
  : Run spec_float :=
  (let ids := seqZ 0 (mem_size mem) in
   let! coords := precompute_coords mem ids in
   let! acc := run_loop (Z.to_nat total_queries) mem mix ids coords 0 in
   let! mean_ns := run_lift (int_truediv acc total_queries) in
   run_lift (float_truediv_int mean_ns 1000))%run.

(** ** One trial *)

Record trial : Type := mkTrial {
  trial_seed : Z;
  trial_arch : string;
  trial_mean_us : spec_float
}.

(** [one]: the dataset, the store and the run of one trial.  The clock
    is the caller's; the logs start empty. *)
Definition one (fuel : nat) (seed n total_queries : Z)
    (mix : gmap string spec_float) (grid : Z) (model_kind : string)
    (clock : Clock) : option (result trial) :=
  match gen_ds fuel n grid (Random seed) with
  | None => None
  | Some (Raise e) => Some (Raise e)
  | Some (Ok (ds, rng)) =>
    match arch_of_string model_kind with
    | Raise e => Some (Raise e)
    | Ok a =>
      match run (build a ds) total_queries mix (mkRunState rng clock [] [] []) with
      | (Ok mean_us, _) => Some (Ok (mkTrial seed model_kind mean_us))
      | (Raise e, _) => Some (Raise e)
      end
    end
  end.

End Program.

(** ** A concrete runtime

    A linear congruential generator and a clock that advances by a fixed
    step at every reading: a runtime on which the program can be run on
    concrete inputs. *)

Definition lcg_next (s : Z) : Z := (s * 1103515245 + 12345) mod 2147483648.

Definition lcg_randbelow (k : Z) (s : Z) : Z * Z :=
  ((lcg_next s / 65536) mod k, lcg_next s).

Definition lcg_random (s : Z) : spec_float * Z :=
  (SFdiv prec64 emax64 (float_of_int (lcg_next s)) (float_of_int 2147483648),
   lcg_next s).

Definition lcg : RandomSource :=
  {| Rng := Z;
     Random := fun seed => seed mod 2147483648;
     randbelow := lcg_randbelow;
     random := lcg_random |}.

(** A generator that sweeps the grid: used for pairs of draws below the
    same bound [k], it yields the cells of the [k] x [k] square in order,
    over and over. *)
Definition sweep_randbelow (k : Z) (s : Z * bool) : Z * (Z * bool) :=
  let '(i, second) := s in
  if second then (i mod k, (i + 1, false)) else ((i / k) mod k, (i, true)).

Definition sweep : RandomSource :=
  {| Rng := (Z * bool)%type;
     Random := fun seed => (seed, false);
     randbelow := sweep_randbelow;
     random := fun s => (float_zero, s) |}.

Definition step_clock : MonotonicClock :=
  {| Clock := Z;
     perf_counter_ns := fun t => (t, t + 100) |}.

(** The floats 0.25 and 0.375. *)
Definition p_quarter : spec_float :=
  Eval vm_compute in SFdiv prec64 emax64 (float_of_int 1) (float_of_int 4).

Definition p_three_eighths : spec_float :=
  Eval vm_compute in SFdiv prec64 emax64 (float_of_int 3) (float_of_int 8).

(** The mix [{"integrated": 0.25, "w2what": 0.375, "what2w": 0.375}]. *)
Definition mix_example : gmap string spec_float :=
  <["integrated" := p_quarter]>
  (<["w2what" := p_three_eighths]>
  (<["what2w" := p_three_eighths]> ∅)).

(** A dataset of five objects on the grid [0..4] x [0..4], generated from
    seed 23 on the concrete runtime, and the state the generator is left in. *)
Definition example_ds : list record :=
  Eval vm_compute in
    match @gen_ds lcg 10 5 4 (@Random lcg 23) with
    | Some (Ok (ds, _)) => ds
    | _ => []
    end.

Definition example_rng : Z :=
  Eval vm_compute in
    match @gen_ds lcg 10 5 4 (@Random lcg 23) with
    | Some (Ok (_, rng)) => rng
    | _ => 0
    end.

(** The state in which [one] enters [run] after generating [example_ds],
    and the float the first iteration draws in it. *)
Definition example_state : @RunState lcg step_clock :=
  @mkRunState lcg step_clock example_rng 0 [] [] [].

Definition example_draw : spec_float :=
  Eval vm_compute in (lcg_random example_rng).1.

(** ** Reading a run

    Notions used to state what a run did; none of them is part of the
    program. *)

Section Reading.
Context `{RandomSource} `{MonotonicClock}.

(** The query one iteration of the loop selects from the generator state
    [s], and the state it leaves: the draws of [run_query] without the store
    and without the clock. *)
Definition next_query (mix : gmap string spec_float)
    (ids : list Z) (coords : list coord) (s : Rng) : result (query * Rng) :=
  let '(r, s1) := random s in
  match mix !! "w2what"%string with
  | None => Raise KeyError
  | Some w2what =>
    if float_lt r w2what then
      match choice coords s1 with
      | Ok (c, s2) => Ok (Q_coord_to_oid c, s2)
      | Raise e => Raise e
      end
    else
      match mix !! "what2w"%string with
      | None => Raise KeyError
      | Some what2w =>
        match choice ids s1 with
        | Ok (o, s2) =>
          if float_lt r (float_add w2what what2w)
          then Ok (Q_oid_to_coord o, s2) else Ok (Q_full_lookup o, s2)
        | Raise e => Raise e
        end
      end
  end.

(** The queries of [k] iterations in a row. *)
Fixpoint query_stream (k : nat) (mix : gmap string spec_float)
    (ids : list Z) (coords : list coord) (s : Rng) : result (list query * Rng) :=
  match k with
  | O => Ok ([], s)
  | S k' =>
    match next_query mix ids coords s with
    | Raise e => Raise e
    | Ok (q, s') =>
      match query_stream k' mix ids coords s' with
      | Raise e => Raise e
      | Ok (qs, s'') => Ok (q :: qs, s'')
      end
    end
  end.

(** The table accesses and the success of the method a query calls. *)
Definition call_log (mem : Mem) (q : query) : list table :=
  match q with
  | Q_coord_to_oid c => accesses (coord_to_oid mem c)
  | Q_oid_to_coord o => accesses (oid_to_coord mem o)
  | Q_full_lookup o => accesses (full_lookup mem o)
  end.

Definition call_ok (mem : Mem) (q : query) : bool :=
  match q with
  | Q_coord_to_oid c => is_ok (value (coord_to_oid mem c))
  | Q_oid_to_coord o => is_ok (value (oid_to_coord mem o))
  | Q_full_lookup o => is_ok (value (full_lookup mem o))
  end.

(** A query whose argument is one of the precomputed ids or coordinates. *)
Definition query_in (ids : list Z) (coords : list coord) (q : query) : Prop :=
  match q with
  | Q_coord_to_oid c => c ∈ coords
  | Q_oid_to_coord o | Q_full_lookup o => o ∈ ids
  end.

(** The clock after one more reading. *)
Definition tick (c : Clock) : Clock := (perf_counter_ns c).2.

(** The time measured by [k] queries in a row on a clock started in [c]:
    each query takes two readings and counts their difference. *)
Fixpoint elapsed (k : nat) (c : Clock) : Z :=
  match k with
  | O => 0
  | S k' =>
    ((perf_counter_ns (tick c)).1 - (perf_counter_ns c).1)
    + elapsed k' (tick (tick c))
  end.

(** The effects of a sequence of timed queries on a clock started in [c]:
    for each query the float draw, the choice of its argument, a reading of
    the clock, the call, a second reading. *)
Fixpoint timed_trace (qs : list query) (c : Clock) : list event :=
  match qs with
  | [] => []
  | q :: qs' =>
    E_random :: E_choice
      :: E_clock (perf_counter_ns c).1
      :: E_call q
      :: E_clock (perf_counter_ns (tick c)).1
      :: timed_trace qs' (tick (tick c))
  end.

(** The first [k] readings of a clock started in [c] are signed 64-bit
    numbers of nanoseconds, the range of [time.perf_counter_ns]. *)
Definition readings_in_range (k : nat) (c : Clock) : Prop :=
  ∀ i : nat, (i < k)%nat →
    - 2 ^ 63 ≤ (perf_counter_ns (Nat.iter i tick c)).1 < 2 ^ 63.

(** Successive readings of the clock never decrease. *)
Definition clock_monotone : Prop :=
  ∀ c, (perf_counter_ns c).1 ≤ (perf_counter_ns (perf_counter_ns c).2).1.

End Reading.

(** The time spent in timed windows, read off a trace: a window is a
    reading of the clock, one call on the store and the next reading, with
    nothing between them; it counts the difference of its two readings. *)
Fixpoint window_sum (tr : list event) : Z :=
  match tr with
  | [] => 0
  | ev :: tr' =>
    match ev, tr' with
    | E_clock t0, E_call _ :: E_clock t1 :: _ => (t1 - t0) + window_sum tr'
    | _, _ => window_sum tr'
    end
  end.

(** The ids a store holds. *)
Definition store_ids (mem : Mem) : gset Z :=
  match mem with
  | MSplit s => dom (where_ s)
  | MUnified u => dom (id_map u)
  end.

(** A list of rows whose ids are not [0 .. size-1]. *)
Definition sparse_ds : list record :=
  [(0, (1, 1), "a"); (5, (2, 2), "b")]%string.

(** A clock that jumps ahead by [2^1100] nanoseconds at every reading. *)
Definition leap_clock : MonotonicClock :=
  {| Clock := Z;
     perf_counter_ns := fun t => (t, t + 2 ^ 1100) |}.

(** The tables a successful call reads, by layout. *)
Definition tables_of (a : arch) (q : query) : list table :=
  match a, q with
  | ArchUnified, Q_coord_to_oid _ => [T_coord_map]
  | ArchUnified, Q_oid_to_coord _ => [T_id_map]
  | ArchUnified, Q_full_lookup _ => [T_id_map]
  | ArchSplit, Q_coord_to_oid _ => [T_idx]
  | ArchSplit, Q_oid_to_coord _ => [T_where]
  | ArchSplit, Q_full_lookup _ => [T_where; T_what; T_idx; T_what]
  end.

Definition is_integrated (q : query) : bool :=
  match q with Q_full_lookup _ => true | _ => false end.

(** The number of combined queries in a list of calls. *)
Definition integrated_count (qs : list query) : nat :=
  length (List.filter is_integrated qs).

(** A character that does not occur in a string. *)
Fixpoint lacks (ch : ascii) (s : string) : Prop :=
  match s with
  | EmptyString => True
  | String c s' => c ≠ ch ∧ lacks ch s'
  end.

(** The number a string of decimal digits denotes, leading zeros allowed. *)
Definition decode_digits (s : string) : option N :=
  N.of_uint <$> NilEmpty.uint_of_string s.

(** A float that does not compare below zero (a zero of either sign, a
    positive number, plus infinity, or not a number). *)
Definition not_below_zero (x : spec_float) : Prop :=
  float_lt x float_zero = false.

(** A zero of either sign, or not a number. *)
Definition zero_or_nan (x : spec_float) : Prop :=
  match x with S754_zero _ | S754_nan => True | _ => False end.

(** Floats with a clear sign bit, or not a number. *)
Definition sign_clear (x : spec_float) : Prop :=
  match x with
  | S754_zero s | S754_infinity s | S754_finite s _ _ => s = false
  | S754_nan => True
  end.

(** The latency [run] returns for three queries on the Split store of
    [example_ds], from [example_state]. *)
Definition example_latency : spec_float :=
  Eval vm_compute in
    match (@run lcg step_clock (build ArchSplit example_ds) 3 mix_example
             example_state).1 with
    | Ok x => x
    | Raise _ => S754_nan
    end.

(** A list of rows in which an id and a coordinate repeat. *)
Definition repeated_ds : list record :=
  [(0, (1, 1), "a"); (0, (2, 2), "b"); (1, (2, 2), "c")]%string.

(** * Properties *)

(** ** Dictionaries built by comprehension *)

Section dict_of.
Context `{Countable K} {V : Type}.
Implicit Types (items : list (K * V)) (k : K) (v : V).

Lemma dict_of_snoc items k v :
  dict_of (items ++ [(k, v)]) = <[k := v]> (dict_of items).
Proof. unfold dict_of. by rewrite fold_left_app. Qed.

Lemma dict_of_list_to_map items :
  dict_of items = list_to_map (reverse items).
Proof.
  induction items as [|[k v] items IH] using rev_ind; [done|].
  by rewrite dict_of_snoc, reverse_snoc, IH.
Qed.

Lemma dict_of_lookup_None items k :
  dict_of items !! k = None ↔ k ∉ items.*1.
Proof.
  rewrite dict_of_list_to_map, <- not_elem_of_list_to_map.
  by rewrite fmap_reverse, elem_of_reverse.
Qed.

Lemma dict_of_lookup_is_Some items k :
  k ∈ items.*1 → is_Some (dict_of items !! k).
Proof.
  intros Hk. destruct (dict_of items !! k) eqn:E; [eauto|].
  by apply dict_of_lookup_None in E.
Qed.

Lemma dict_of_lookup_elem items k v :
  dict_of items !! k = Some v → (k, v) ∈ items.
Proof.
  rewrite dict_of_list_to_map. intros Hk.
  apply elem_of_list_to_map_2 in Hk. by rewrite elem_of_reverse in Hk.
Qed.

Lemma dict_of_lookup_Some items k v :
  NoDup items.*1 → (k, v) ∈ items → dict_of items !! k = Some v.
Proof.
  intros Hnd Hin. rewrite dict_of_list_to_map.
  apply elem_of_list_to_map_1.
  - rewrite fmap_reverse. by rewrite reverse_Permutation.
  - by apply elem_of_reverse.
Qed.

Lemma dict_of_size items :
  NoDup items.*1 → size (dict_of items) = length items.
Proof.
  intros Hnd. rewrite dict_of_list_to_map, map_size_list_to_map.
  - apply length_reverse.
  - rewrite fmap_reverse. by rewrite reverse_Permutation.
Qed.

End dict_of.

(** ** The tables of the two stores *)

Section tables.
Implicit Types (ds : list record) (oid : Z) (c : coord) (f : string).

(** The keys of each table are the ids, or the coordinates, of the rows. *)
Lemma id_map_keys ds : ((fun '(oid, c, f) => (oid, (c, f))) <$> ds).*1 = oids ds.
Proof. unfold oids. rewrite <- list_fmap_compose. apply list_fmap_ext. by intros ? [[??]?] ?. Qed.

Lemma coord_map_keys ds : ((fun '(oid, c, f) => (c, (oid, f))) <$> ds).*1 = coords_of ds.
Proof. unfold coords_of. rewrite <- list_fmap_compose. apply list_fmap_ext. by intros ? [[??]?] ?. Qed.

Lemma where_keys ds : ((fun '(oid, c, _) => (oid, c)) <$> ds : list (Z * coord)).*1 = oids ds.
Proof. unfold oids. rewrite <- list_fmap_compose. apply list_fmap_ext. by intros ? [[??]?] ?. Qed.

Lemma what_keys ds : ((fun '(oid, _, f) => (oid, f)) <$> ds : list (Z * string)).*1 = oids ds.
Proof. unfold oids. rewrite <- list_fmap_compose. apply list_fmap_ext. by intros ? [[??]?] ?. Qed.

Lemma idx_keys ds : ((fun '(oid, c, _) => (c, oid)) <$> ds : list (coord * Z)).*1 = coords_of ds.
Proof. unfold coords_of. rewrite <- list_fmap_compose. apply list_fmap_ext. by intros ? [[??]?] ?. Qed.

Lemma elem_of_oids ds oid : oid ∈ oids ds ↔ ∃ c f, (oid, c, f) ∈ ds.
Proof.
  unfold oids. rewrite list_elem_of_fmap. split.
  - intros ([[o c] f] & -> & Hin). by exists c, f.
  - intros (c & f & Hin). by exists (oid, c, f).
Qed.

Lemma elem_of_coords_of ds c : c ∈ coords_of ds ↔ ∃ oid f, (oid, c, f) ∈ ds.
Proof.
  unfold coords_of. rewrite list_elem_of_fmap. split.
  - intros ([[o c'] f] & -> & Hin). by exists o, f.
  - intros (o & f & Hin). by exists (o, c, f).
Qed.

(** A row is found under its id when ids are distinct ... *)
Lemma id_map_row ds oid c f :
  NoDup (oids ds) → (oid, c, f) ∈ ds →
  id_map (Unified_init ds) !! oid = Some (c, f).
Proof.
  intros Hnd Hin. apply dict_of_lookup_Some; [by rewrite id_map_keys|].
  apply list_elem_of_fmap. by exists (oid, c, f).
Qed.

Lemma where_row ds oid c f :
  NoDup (oids ds) → (oid, c, f) ∈ ds →
  where_ (Split_init ds) !! oid = Some c.
Proof.
  intros Hnd Hin. apply dict_of_lookup_Some; [by rewrite where_keys|].
  apply list_elem_of_fmap. by exists (oid, c, f).
Qed.

Lemma what_row ds oid c f :
  NoDup (oids ds) → (oid, c, f) ∈ ds →
  what (Split_init ds) !! oid = Some f.
Proof.
  intros Hnd Hin. apply dict_of_lookup_Some; [by rewrite what_keys|].
  apply list_elem_of_fmap. by exists (oid, c, f).
Qed.

(** ... and under its coordinate when coordinates are distinct. *)
Lemma coord_map_row ds oid c f :
  NoDup (coords_of ds) → (oid, c, f) ∈ ds →
  coord_map (Unified_init ds) !! c = Some (oid, f).
Proof.
  intros Hnd Hin. apply dict_of_lookup_Some; [by rewrite coord_map_keys|].
  apply list_elem_of_fmap. by exists (oid, c, f).
Qed.

Lemma idx_row ds oid c f :
  NoDup (coords_of ds) → (oid, c, f) ∈ ds →
  idx (Split_init ds) !! c = Some oid.
Proof.
  intros Hnd Hin. apply dict_of_lookup_Some; [by rewrite idx_keys|].
  apply list_elem_of_fmap. by exists (oid, c, f).
Qed.

(** Whatever a table holds comes from a row. *)
Lemma id_map_elem ds oid c f :
  id_map (Unified_init ds) !! oid = Some (c, f) → (oid, c, f) ∈ ds.
Proof.
  intros Hl. apply dict_of_lookup_elem, list_elem_of_fmap in Hl.
  destruct Hl as ([[o c'] f'] & [= -> -> ->] & Hin). done.
Qed.

Lemma where_elem ds oid c :
  where_ (Split_init ds) !! oid = Some c → ∃ f, (oid, c, f) ∈ ds.
Proof.
  intros Hl. apply dict_of_lookup_elem, list_elem_of_fmap in Hl.
  destruct Hl as ([[o c'] f'] & [= -> ->] & Hin). eauto.
Qed.

Lemma idx_elem ds oid c :
  idx (Split_init ds) !! c = Some oid → ∃ f, (oid, c, f) ∈ ds.
Proof.
  intros Hl. apply dict_of_lookup_elem, list_elem_of_fmap in Hl.
  destruct Hl as ([[o c'] f'] & [= -> ->] & Hin). eauto.
Qed.

(** Absent keys. *)
Lemma id_map_absent ds oid :
  oid ∉ oids ds → id_map (Unified_init ds) !! oid = None.
Proof. intros Hn. apply dict_of_lookup_None. by rewrite id_map_keys. Qed.

Lemma where_absent ds oid :
  oid ∉ oids ds → where_ (Split_init ds) !! oid = None.
Proof. intros Hn. apply dict_of_lookup_None. by rewrite where_keys. Qed.

Lemma coord_map_absent ds c :
  c ∉ coords_of ds → coord_map (Unified_init ds) !! c = None.
Proof. intros Hn. apply dict_of_lookup_None. by rewrite coord_map_keys. Qed.

Lemma idx_absent ds c :
  c ∉ coords_of ds → idx (Split_init ds) !! c = None.
Proof. intros Hn. apply dict_of_lookup_None. by rewrite idx_keys. Qed.

Lemma where_present ds oid :
  oid ∈ oids ds → is_Some (where_ (Split_init ds) !! oid).
Proof. intros Hin. apply dict_of_lookup_is_Some. by rewrite where_keys. Qed.

Lemma what_present ds oid :
  oid ∈ oids ds → is_Some (what (Split_init ds) !! oid).
Proof. intros Hin. apply dict_of_lookup_is_Some. by rewrite what_keys. Qed.

End tables.

(** ** Datasets *)

Lemma well_formed_length n ds : well_formed n ds → length ds = Z.to_nat n.
Proof.
  intros [Hids _ _]. unfold oids in Hids.
  by rewrite <- (length_fmap rec_oid), Hids, length_seqZ.
Qed.

Lemma well_formed_NoDup_oids n ds : well_formed n ds → NoDup (oids ds).
Proof. intros [-> _ _]. apply NoDup_seqZ. Qed.

Lemma well_formed_oid n ds oid :
  well_formed n ds → (oid ∈ oids ds ↔ 0 ≤ oid < n).
Proof. intros [-> _ _]. rewrite elem_of_seqZ. lia. Qed.

Lemma well_formed_row n ds oid :
  well_formed n ds → 0 ≤ oid < n → ∃ c f, (oid, c, f) ∈ ds.
Proof.
  intros Hwf Hoid. apply elem_of_oids. by apply (well_formed_oid n).
Qed.

Section generation.
Context `{RandomSource}.

Lemma draw_unused_fresh fuel grid used s c s' :
  draw_unused fuel grid used s = Some (Ok (c, s')) → c ∉ used.
Proof.
  revert s. induction fuel as [|fuel IH]; intros s; simpl; [done|].
  destruct (randint 0 grid s) as [[x s1]|e]; [|done].
  destruct (randint 0 grid s1) as [[y s2]|e]; [|done].
  case_decide as Hin.
  - apply IH.
  - by intros [= <- <-].
Qed.

Lemma draw_unused_mono fuel fuel' grid used s r :
  (fuel ≤ fuel')%nat →
  draw_unused fuel grid used s = Some r →
  draw_unused fuel' grid used s = Some r.
Proof.
  revert fuel' s. induction fuel as [|fuel IH]; intros fuel' s Hle; simpl; [done|].
  destruct fuel' as [|fuel']; [lia|]. simpl.
  destruct (randint 0 grid s) as [[x s1]|e]; [|done].
  destruct (randint 0 grid s1) as [[y s2]|e]; [|done].
  case_decide; [|done]. apply IH. lia.
Qed.

Lemma gen_rows_mono fuel fuel' grid ids used rows s r :
  (fuel ≤ fuel')%nat →
  gen_rows fuel grid ids used rows s = Some r →
  gen_rows fuel' grid ids used rows s = Some r.
Proof.
  intros Hle. revert used rows s.
  induction ids as [|i ids IH]; intros used rows s; simpl; [done|].
  destruct (draw_unused fuel grid used s) as [d|] eqn:Hd; [|done].
  rewrite (draw_unused_mono _ _ _ _ _ _ Hle Hd).
  destruct d as [[c s']|e]; [apply IH|done].
Qed.

(** The rows appended by the loop: one per id, in order, each on a
    coordinate that was unused and differs from the others. *)
Lemma gen_rows_appended fuel grid ids used rows s rows' s' :
  gen_rows fuel grid ids used rows s = Some (Ok (rows', s')) →
  ∃ new, rows' = rows ++ new
       ∧ oids new = ids
       ∧ NoDup (coords_of new)
       ∧ (∀ c, c ∈ coords_of new → c ∉ used)
       ∧ Forall (fun r => rec_label r = feature (rec_oid r)) new.
Proof.
  revert used rows s. induction ids as [|i ids IH]; intros used rows s; simpl.
  - intros [= <- <-]. exists []. rewrite app_nil_r.
    repeat split; [constructor | by intros c ?%elem_of_nil | constructor].
  - destruct (draw_unused fuel grid used s) as [[[c s1]|e]|] eqn:Hd; [|done|done].
    intros Hrest. apply IH in Hrest as (new & -> & Hids & Hnd & Hfresh & Hlab).
    apply draw_unused_fresh in Hd.
    exists ((i, c, feature i) :: new). rewrite <- app_assoc. simpl.
    repeat split.
    + unfold oids in *. csimpl. by rewrite Hids.
    + unfold coords_of in *. csimpl. apply NoDup_cons. split; [|done].
      intros Hc. apply Hfresh in Hc. set_solver.
    + intros c' Hc'. unfold coords_of in *. csimpl in Hc'.
      apply elem_of_cons in Hc' as [->|Hc']; [done|].
      apply Hfresh in Hc'. set_solver.
    + by constructor.
Qed.

Lemma gen_ds_well_formed fuel n grid rng ds rng' :
  gen_ds fuel n grid rng = Some (Ok (ds, rng')) → well_formed n ds.
Proof.
  unfold gen_ds. intros Hgen.
  apply gen_rows_appended in Hgen as (new & -> & Hids & Hnd & _ & Hlab).
  by split.
Qed.

(** A run of the generator does not depend on the bound it was given. *)
Lemma gen_ds_mono fuel fuel' n grid rng r :
  (fuel ≤ fuel')%nat →
  gen_ds fuel n grid rng = Some r → gen_ds fuel' n grid rng = Some r.
Proof. apply gen_rows_mono. Qed.

End generation.

(** ** Termination of the generator *)

Section cells.

Lemma cell_in_grid grid i :
  0 ≤ grid → 0 ≤ i < (grid + 1) * (grid + 1) → in_grid grid (cell grid i).
Proof.
  intros Hg Hi. unfold in_grid, cell. simpl.
  pose proof (Z.mod_pos_bound i (grid + 1)).
  assert (0 ≤ i / (grid + 1)) by (apply Z.div_pos; lia).
  assert (i / (grid + 1) < grid + 1) by (apply Z.div_lt_upper_bound; lia).
  lia.
Qed.

Lemma cell_of_coord grid (c : coord) :
  0 ≤ grid → in_grid grid c → cell grid (c.1 * (grid + 1) + c.2) = c.
Proof.
  intros Hg [Hx Hy]. destruct c as [x y]. unfold cell. simpl in *. f_equal.
  - rewrite Z.div_add_l by lia. rewrite Z.div_small by lia. lia.
  - rewrite Z.add_comm, Z.mod_add by lia. apply Z.mod_small. lia.
Qed.

Lemma cell_inj grid i j :
  0 ≤ grid → cell grid i = cell grid j → i = j.
Proof.
  unfold cell. intros Hg [= Hd Hm].
  rewrite (Z.div_mod i (grid + 1)), (Z.div_mod j (grid + 1)) by lia.
  by rewrite Hd, Hm.
Qed.

Lemma NoDup_cells grid : 0 ≤ grid → NoDup (cells grid).
Proof.
  intros Hg. unfold cells. apply NoDup_fmap_2_strong; [|apply NoDup_seqZ].
  intros i j _ _. by apply cell_inj.
Qed.

Lemma length_cells grid : length (cells grid) = Z.to_nat ((grid + 1) * (grid + 1)).
Proof. unfold cells. by rewrite length_fmap, length_seqZ. Qed.

Lemma elem_of_cells grid c : 0 ≤ grid → c ∈ cells grid ↔ in_grid grid c.
Proof.
  intros Hg. unfold cells. rewrite list_elem_of_fmap. split.
  - intros (i & -> & Hi%elem_of_seqZ). apply cell_in_grid; lia.
  - intros Hc. exists (c.1 * (grid + 1) + c.2). split.
    + by rewrite cell_of_coord.
    + apply elem_of_seqZ. destruct Hc. nia.
Qed.

(** A set with fewer elements than the grid has cells misses a cell. *)
Lemma unused_cell (grid : Z) (used : gset coord) :
  0 ≤ grid →
  (size used < Z.to_nat ((grid + 1) * (grid + 1)))%nat →
  ∃ c, in_grid grid c ∧ c ∉ used.
Proof.
  intros Hg Hsize.
  destruct (decide (Forall (fun c => c ∈ used) (cells grid))) as [Hall|Hex].
  - exfalso.
    assert (list_to_set (cells grid) ⊆ used) as Hsub.
    { intros c Hc%elem_of_list_to_set. by apply (proj1 (Forall_forall _ _) Hall). }
    apply subseteq_size in Hsub.
    rewrite size_list_to_set, length_cells in Hsub by by apply NoDup_cells.
    lia.
  - apply not_Forall_Exists, Exists_exists in Hex as (c & Hc & Hn); [|apply _].
    exists c. split; [by apply elem_of_cells|done].
Qed.

End cells.

Section termination.
Context `{RandomSource}.

Lemma draw_unused_step fuel grid used s :
  draw_unused (S fuel) grid used s =
  match draw_coord grid s with
  | Raise e => Some (Raise e)
  | Ok (c, s2) =>
    if decide (c ∈ used) then draw_unused fuel grid used s2 else Some (Ok (c, s2))
  end.
Proof.
  simpl. unfold draw_coord.
  destruct (randint 0 grid s) as [[x s1]|e]; [|done].
  by destruct (randint 0 grid s1) as [[y s2]|e].
Qed.

Lemma nth_draw_after j m grid s c s' :
  nth_draw j grid s = Ok (c, s') →
  nth_draw (S j + m) grid s = nth_draw m grid s'.
Proof.
  revert s. induction j as [|j IH]; intros s; simpl.
  - by intros ->.
  - destruct (draw_coord grid s) as [[c0 s0]|e]; [|done]. apply IH.
Qed.

Lemma recurrent_after j grid s c s' :
  recurrent grid s → nth_draw j grid s = Ok (c, s') → recurrent grid s'.
Proof.
  intros Hrec Hj j' c' Hc'.
  destruct (Hrec (S j + j')%nat c' Hc') as (k & s'' & Hk).
  exists k, s''. rewrite <- Hk, <- Nat.add_assoc. symmetry.
  apply (nth_draw_after j (j' + k) grid s c s' Hj).
Qed.

(** If the [k]-th draw from [s] is unused, the loop ends within [k+1]
    draws, on one of the draws of the sequence. *)
Lemma draw_unused_ends k grid used s c s' :
  nth_draw k grid s = Ok (c, s') → c ∉ used →
  ∃ j c1 s1, draw_unused (S k) grid used s = Some (Ok (c1, s1))
           ∧ nth_draw j grid s = Ok (c1, s1).
Proof.
  revert s. induction k as [|k IH]; intros s Hk Hc; rewrite draw_unused_step.
  - simpl in Hk. rewrite Hk. rewrite decide_False by done.
    by exists 0%nat, c, s'.
  - simpl in Hk. destruct (draw_coord grid s) as [[c0 s0]|e] eqn:Hd; [|done].
    case_decide as Hin.
    + destruct (IH s0 Hk Hc) as (j & c1 & s1 & Hdraw & Hj).
      exists (S j), c1, s1. split; [done|]. simpl. by rewrite Hd.
    + exists 0%nat, c0, s0. by split.
Qed.

Lemma gen_rows_terminates grid ids used rows s :
  0 ≤ grid → recurrent grid s →
  (size used + length ids ≤ Z.to_nat ((grid + 1) * (grid + 1)))%nat →
  ∃ fuel rows' s', gen_rows fuel grid ids used rows s = Some (Ok (rows', s')).
Proof.
  intros Hg. revert used rows s.
  induction ids as [|i ids IH]; intros used rows s Hrec Hsize.
  - by exists 0%nat, rows, s.
  - simpl in Hsize.
    destruct (unused_cell grid used Hg) as (c & Hc & Hfree); [lia|].
    destruct (Hrec 0%nat c Hc) as (k & s' & Hk). simpl in Hk.
    destruct (draw_unused_ends k grid used s c s' Hk Hfree)
      as (j & c1 & s1 & Hdraw & Hj).
    pose proof (draw_unused_fresh _ _ _ _ _ _ Hdraw) as Hfresh.
    destruct (IH ({[c1]} ∪ used) (rows ++ [(i, c1, feature i)]) s1)
      as (fuel & rows' & s2 & Hrest).
    + by eapply recurrent_after.
    + rewrite size_union, size_singleton by set_solver. lia.
    + exists (Nat.max (S k) fuel), rows', s2. cbn [gen_rows].
      rewrite (draw_unused_mono (S k) _ _ _ _ _ (Nat.le_max_l _ _) Hdraw).
      by apply (gen_rows_mono fuel _ _ _ _ _ _ _ (Nat.le_max_r _ _)).
Qed.

(** X9.  On a grid with room for [n] objects, and a generator that keeps
    drawing every cell, the rejection loop ends for every object and
    [gen_ds] returns a dataset. *)
Theorem gen_ds_terminates n grid rng :
  0 ≤ grid → n ≤ (grid + 1) * (grid + 1) → recurrent grid rng →
  ∃ fuel ds rng', gen_ds fuel n grid rng = Some (Ok (ds, rng')).
Proof.
  intros Hg Hn Hrec. apply gen_rows_terminates; [done|done|].
  rewrite size_empty, length_seqZ. lia.
Qed.

(** Coordinates lie on the grid when the draws are in range. *)
Lemma randint_in_range a b s x s' :
  randbelow_in_range → randint a b s = Ok (x, s') → a ≤ x ≤ b.
Proof.
  intros Hrange. unfold randint. case_match eqn:Hab; [done|].
  apply Z.ltb_ge in Hab. specialize (Hrange (b - a + 1) s).
  destruct (randbelow (b - a + 1) s) as [k s0]. simpl in Hrange.
  intros [= <- <-]. lia.
Qed.

Lemma draw_unused_in_grid fuel grid used s c s' :
  randbelow_in_range →
  draw_unused fuel grid used s = Some (Ok (c, s')) → in_grid grid c.
Proof.
  intros Hrange. revert s. induction fuel as [|fuel IH]; intros s; simpl; [done|].
  destruct (randint 0 grid s) as [[x s1]|e] eqn:Hx; [|done].
  destruct (randint 0 grid s1) as [[y s2]|e] eqn:Hy; [|done].
  case_decide; [apply IH|]. intros [= <- <-].
  split; simpl; by eapply randint_in_range.
Qed.

Lemma gen_rows_in_grid fuel grid ids used rows s rows' s' :
  randbelow_in_range →
  Forall (in_grid grid) (coords_of rows) →
  gen_rows fuel grid ids used rows s = Some (Ok (rows', s')) →
  Forall (in_grid grid) (coords_of rows').
Proof.
  intros Hrange. revert used rows s.
  induction ids as [|i ids IH]; intros used rows s Hrows; simpl.
  - by intros [= <- <-].
  - destruct (draw_unused fuel grid used s) as [[[c s1]|e]|] eqn:Hd; [|done|done].
    intros Hrest. eapply IH; [|exact Hrest].
    unfold coords_of. rewrite fmap_app. apply Forall_app. split; [done|].
    apply Forall_singleton. by eapply draw_unused_in_grid.
Qed.

(** X8.  Every coordinate of a generated dataset lies in the square
    [0 .. grid] x [0 .. grid], bounds included. *)
Theorem gen_ds_in_grid fuel n grid rng ds rng' :
  randbelow_in_range →
  gen_ds fuel n grid rng = Some (Ok (ds, rng')) →
  Forall (in_grid grid) (coords_of ds).
Proof. intros Hrange. by apply gen_rows_in_grid. Qed.

(** X10.  With more objects than the grid has cells the generator cannot
    return a dataset, however many draws it is allowed: once every cell is
    taken it rejects every draw. *)
Theorem gen_ds_overfull fuel n grid rng ds rng' :
  randbelow_in_range → 0 ≤ grid → (grid + 1) * (grid + 1) < n →
  gen_ds fuel n grid rng ≠ Some (Ok (ds, rng')).
Proof.
  intros Hrange Hg Hn Hgen.
  assert (Forall (in_grid grid) (coords_of ds)) as Hin
    by (by eapply gen_rows_in_grid; [| |exact Hgen]).
  apply gen_ds_well_formed in Hgen as Hwf.
  pose proof (well_formed_length _ _ Hwf) as Hlen.
  assert (coords_of ds ⊆+ cells grid) as Hsub.
  { apply NoDup_submseteq; [by apply (wf_coords n)|].
    intros c Hc. apply elem_of_cells; [done|].
    by apply (proj1 (Forall_forall _ _) Hin). }
  apply submseteq_length in Hsub.
  unfold coords_of in Hsub. rewrite length_fmap, length_cells, Hlen in Hsub. lia.
Qed.

End termination.

(** The sweeping generator keeps drawing every cell. *)
Section sweep.

Lemma sweep_draw_coord grid i :
  0 ≤ grid →
  @draw_coord sweep grid (i, false)
  = Ok (((i / (grid + 1)) mod (grid + 1), i mod (grid + 1)), (i + 1, false)).
Proof.
  intros Hg. unfold draw_coord, randint. simpl.
  destruct (grid <? 0) eqn:Hlt; [lia|]. simpl.
  replace (grid - 0 + 1) with (grid + 1) by lia.
  by rewrite !Z.add_0_l.
Qed.

Lemma sweep_nth_draw grid i (j : nat) :
  0 ≤ grid →
  @nth_draw sweep j grid (i, false)
  = Ok ((((i + Z.of_nat j) / (grid + 1)) mod (grid + 1),
         (i + Z.of_nat j) mod (grid + 1)),
        (i + Z.of_nat j + 1, false)).
Proof.
  intros Hg. revert i. induction j as [|j IH]; intros i.
  - cbn [nth_draw]. rewrite sweep_draw_coord by done.
    by rewrite Z.add_0_r.
  - cbn [nth_draw]. rewrite sweep_draw_coord by done. rewrite IH.
    by replace (i + 1 + Z.of_nat j) with (i + Z.of_nat (S j)) by lia.
Qed.

Lemma sweep_recurrent grid seed :
  0 ≤ grid → @recurrent sweep grid (@Random sweep seed).
Proof.
  intros Hg j [x y] [Hx Hy]. simpl in Hx, Hy.
  set (k := grid + 1).
  set (t := Z.max 0 (seed + Z.of_nat j)).
  set (m := (x + k * t) * k + y).
  assert (0 ≤ t ∧ seed + Z.of_nat j ≤ t) as [Ht0 Ht] by lia.
  assert (seed + Z.of_nat j ≤ m) as Hm by (unfold m, k; nia).
  exists (Z.to_nat (m - seed - Z.of_nat j)), (m + 1, false).
  change (@Random sweep seed) with (seed, false).
  rewrite sweep_nth_draw by done. fold k.
  replace (seed + Z.of_nat (j + Z.to_nat (m - seed - Z.of_nat j))) with m by lia.
  do 3 f_equal.
  - unfold m. rewrite Z.div_add_l by (unfold k; lia).
    rewrite (Z.div_small y k) by (unfold k; lia).
    rewrite Z.add_0_r, (Z.mul_comm k t), Z.mod_add by (unfold k; lia).
    apply Z.mod_small. unfold k. lia.
  - unfold m. rewrite Z.add_comm, Z.mod_add by (unfold k; lia).
    apply Z.mod_small. unfold k. lia.
Qed.


(** So on the sweeping generator [gen_ds] returns whenever the grid has
    room for the [n] objects. *)
Lemma gen_ds_sweep_returns n grid seed :
  0 ≤ grid → n ≤ (grid + 1) * (grid + 1) →
  ∃ fuel ds rng', @gen_ds sweep fuel n grid (@Random sweep seed)
                  = Some (Ok (ds, rng')).
Proof.
  intros Hg Hn. apply (@gen_rows_terminates sweep); [done| |].
  - by apply sweep_recurrent.
  - rewrite size_empty, length_seqZ. lia.
Qed.

End sweep.

(** ** Lookups on stores built from a well-formed dataset *)

Section stores.
Implicit Types (ds : list record) (oid : Z) (c : coord) (f : string).

Lemma dict_get_Some `{Countable K} {V} t (d : gmap K V) k v :
  d !! k = Some v → dict_get t d k = ([t], Ok v).
Proof. unfold dict_get. by intros ->. Qed.

Lemma dict_get_None `{Countable K} {V} t (d : gmap K V) k :
  d !! k = None → dict_get t d k = ([t], Raise KeyError).
Proof. unfold dict_get. by intros ->. Qed.

Lemma unified_oid_to_coord_row n ds oid c f :
  well_formed n ds → (oid, c, f) ∈ ds →
  oid_to_coord (Unified_init ds) oid = ([T_id_map], Ok c).
Proof.
  intros Hwf Hin. simpl. unfold Unified_oid_to_coord, dict_get.
  by rewrite (id_map_row ds oid c f) by eauto using well_formed_NoDup_oids.
Qed.

Lemma unified_coord_to_oid_row n ds oid c f :
  well_formed n ds → (oid, c, f) ∈ ds →
  coord_to_oid (Unified_init ds) c = ([T_coord_map], Ok oid).
Proof.
  intros Hwf Hin. simpl. unfold Unified_coord_to_oid, dict_get.
  by rewrite (coord_map_row ds oid c f) by eauto using wf_coords.
Qed.

Lemma unified_full_lookup_row n ds oid c f :
  well_formed n ds → (oid, c, f) ∈ ds →
  full_lookup (Unified_init ds) oid = ([T_id_map], Ok (c, f)).
Proof.
  intros Hwf Hin. simpl. unfold Unified_full_lookup, dict_get.
  by rewrite (id_map_row ds oid c f) by eauto using well_formed_NoDup_oids.
Qed.

Lemma split_oid_to_coord_row n ds oid c f :
  well_formed n ds → (oid, c, f) ∈ ds →
  oid_to_coord (Split_init ds) oid = ([T_where], Ok c).
Proof.
  intros Hwf Hin. simpl. unfold Split_oid_to_coord, dict_get.
  by rewrite (where_row ds oid c f) by eauto using well_formed_NoDup_oids.
Qed.

Lemma split_coord_to_oid_row n ds oid c f :
  well_formed n ds → (oid, c, f) ∈ ds →
  coord_to_oid (Split_init ds) c = ([T_idx], Ok oid).
Proof.
  intros Hwf Hin. simpl. unfold Split_coord_to_oid, dict_get.
  by rewrite (idx_row ds oid c f) by eauto using wf_coords.
Qed.

Lemma split_full_lookup_row n ds oid c f :
  well_formed n ds → (oid, c, f) ∈ ds →
  full_lookup (Split_init ds) oid = ([T_where; T_what; T_idx; T_what], Ok (c, f)).
Proof.
  intros Hwf Hin.
  pose proof (well_formed_NoDup_oids _ _ Hwf) as Hnd.
  change (Split_full_lookup (Split_init ds) oid
          = ([T_where; T_what; T_idx; T_what], Ok (c, f))).
  unfold Split_full_lookup.
  rewrite (dict_get_Some T_where _ oid c) by (eapply where_row; eauto). cbn -[dict_get].
  rewrite (dict_get_Some T_what _ oid f) by (eapply what_row; eauto). cbn -[dict_get].
  rewrite (dict_get_Some T_idx _ c oid) by (eapply idx_row; eauto using wf_coords). cbn -[dict_get].
  by rewrite (dict_get_Some T_what _ oid f) by (eapply what_row; eauto).
Qed.

(** The three methods of the interface, on either layout. *)
Lemma build_oid_to_coord_row n ds a oid c f :
  well_formed n ds → (oid, c, f) ∈ ds →
  value (oid_to_coord (build a ds) oid) = Ok c.
Proof.
  intros Hwf Hin. destruct a; cbn -[oid_to_coord].
  - change (value (oid_to_coord (Unified_init ds) oid) = Ok c).
    by erewrite unified_oid_to_coord_row.
  - change (value (oid_to_coord (Split_init ds) oid) = Ok c).
    by erewrite split_oid_to_coord_row.
Qed.

Lemma build_coord_to_oid_row n ds a oid c f :
  well_formed n ds → (oid, c, f) ∈ ds →
  value (coord_to_oid (build a ds) c) = Ok oid.
Proof.
  intros Hwf Hin. destruct a.
  - change (value (coord_to_oid (Unified_init ds) c) = Ok oid).
    by erewrite unified_coord_to_oid_row.
  - change (value (coord_to_oid (Split_init ds) c) = Ok oid).
    by erewrite split_coord_to_oid_row.
Qed.

Lemma build_oid_to_coord_absent ds a oid :
  oid ∉ oids ds → value (oid_to_coord (build a ds) oid) = Raise KeyError.
Proof.
  intros Hn. destruct a.
  - change (value (Unified_oid_to_coord (Unified_init ds) oid) = Raise KeyError).
    unfold Unified_oid_to_coord.
    by rewrite (dict_get_None _ _ _ (id_map_absent _ _ Hn)).
  - change (value (Split_oid_to_coord (Split_init ds) oid) = Raise KeyError).
    unfold Split_oid_to_coord.
    by rewrite (dict_get_None _ _ _ (where_absent _ _ Hn)).
Qed.

Lemma build_coord_to_oid_absent ds a c :
  c ∉ coords_of ds → value (coord_to_oid (build a ds) c) = Raise KeyError.
Proof.
  intros Hn. destruct a.
  - change (value (Unified_coord_to_oid (Unified_init ds) c) = Raise KeyError).
    unfold Unified_coord_to_oid.
    by rewrite (dict_get_None _ _ _ (coord_map_absent _ _ Hn)).
  - change (value (Split_coord_to_oid (Split_init ds) c) = Raise KeyError).
    unfold Split_coord_to_oid.
    by rewrite (dict_get_None _ _ _ (idx_absent _ _ Hn)).
Qed.

Lemma value_bind_ok {A B} (m : Acc A) (k : A → Acc B) a :
  value m = Ok a → value (acc_bind m k) = value (k a).
Proof. destruct m as [log r]. simpl. intros ->. simpl. by destruct (k a). Qed.

End stores.

(** ** The properties of the specification: datasets and stores *)

Section claims_on_stores.
Context `{RandomSource}.
Implicit Types (ds : list record) (a : arch).

(** C3 (uniqueness invariant).  A dataset returned by [gen_ds n grid] has
    one row per id of [range(n)] and the coordinates of its rows are
    pairwise distinct. *)
Theorem gen_ds_coords_distinct fuel n grid rng ds rng' :
  gen_ds fuel n grid rng = Some (Ok (ds, rng')) →
  length ds = Z.to_nat n ∧ NoDup (coords_of ds).
Proof.
  intros Hwf%gen_ds_well_formed. split.
  - by apply well_formed_length.
  - by apply (wf_coords n).
Qed.

(** The bound on the number of draws is a device of the model: every
    bound under which a run of [gen_ds] completes gives the same outcome. *)
Lemma gen_ds_bound_irrelevant fuel1 fuel2 rng n grid r1 r2 :
  gen_ds fuel1 n grid rng = Some r1 →
  gen_ds fuel2 n grid rng = Some r2 →
  r1 = r2.
Proof.
  intros H1 H2.
  apply (gen_ds_mono _ (Nat.max fuel1 fuel2)) in H1; [|lia].
  apply (gen_ds_mono _ (Nat.max fuel1 fuel2)) in H2; [|lia].
  congruence.
Qed.

(** C1 (round-trip invariant).  On a store of either layout built from a
    generated dataset, [coord_to_oid(oid_to_coord(id))] is [id] for every
    [id] of [0 .. n-1]. *)
Theorem coord_to_oid_oid_to_coord fuel n grid rng ds rng' a id :
  gen_ds fuel n grid rng = Some (Ok (ds, rng')) →
  0 ≤ id < n →
  value (let! c := oid_to_coord (build a ds) id in
         coord_to_oid (build a ds) c)%acc = Ok id.
Proof.
  intros Hwf%gen_ds_well_formed Hid.
  destruct (well_formed_row n ds id Hwf Hid) as (c & f & Hrow).
  rewrite (value_bind_ok _ _ c) by eauto using build_oid_to_coord_row.
  eauto using build_coord_to_oid_row.
Qed.

(** C2 (cross-layout equivalence).  On a generated dataset [full_lookup]
    returns the same [(location, label)] pair on both layouts, the pair of
    the row of that id. *)
Theorem full_lookup_layouts_agree fuel n grid rng ds rng' id :
  gen_ds fuel n grid rng = Some (Ok (ds, rng')) →
  0 ≤ id < n →
  ∃ c f, (id, c, f) ∈ ds
       ∧ value (full_lookup (build ArchUnified ds) id) = Ok (c, f)
       ∧ value (full_lookup (build ArchSplit ds) id) = Ok (c, f).
Proof.
  intros Hwf%gen_ds_well_formed Hid.
  destruct (well_formed_row n ds id Hwf Hid) as (c & f & Hrow).
  exists c, f. split; [done|]. split.
  - change (value (full_lookup (Unified_init ds) id) = Ok (c, f)).
    by erewrite unified_full_lookup_row.
  - change (value (full_lookup (Split_init ds) id) = Ok (c, f)).
    by erewrite split_full_lookup_row.
Qed.

(** C4 (extra cost of the Split layout).  For a valid id, [full_lookup]
    makes exactly one table access on the Unified store and four on the
    Split store (the where table, the what table, the index, and the what
    table again): strictly more than one, and at least two. *)
Theorem split_full_lookup_costs_more fuel n grid rng ds rng' id :
  gen_ds fuel n grid rng = Some (Ok (ds, rng')) →
  0 ≤ id < n →
  accesses (full_lookup (build ArchUnified ds) id) = [T_id_map]
  ∧ accesses (full_lookup (build ArchSplit ds) id) = [T_where; T_what; T_idx; T_what]
  ∧ (length (accesses (full_lookup (build ArchUnified ds) id)) = 1)%nat
  ∧ (length (accesses (full_lookup (build ArchUnified ds) id))
     < length (accesses (full_lookup (build ArchSplit ds) id)))%nat
  ∧ (2 ≤ length (accesses (full_lookup (build ArchSplit ds) id)))%nat.
Proof.
  intros Hwf%gen_ds_well_formed Hid.
  destruct (well_formed_row n ds id Hwf Hid) as (c & f & Hrow).
  change (full_lookup (build ArchUnified ds) id)
    with (full_lookup (Unified_init ds) id).
  change (full_lookup (build ArchSplit ds) id)
    with (full_lookup (Split_init ds) id).
  rewrite (unified_full_lookup_row n ds id c f) by done.
  rewrite (split_full_lookup_row n ds id c f) by done.
  simpl. repeat split; lia.
Qed.

(** C6 (NotFound behaviour).  On a store of either layout built from a
    generated dataset of [n] rows, [oid_to_coord] raises [KeyError] on
    every id outside [0 .. n-1] and [coord_to_oid] raises [KeyError] on
    every coordinate that no row uses. *)
Theorem lookups_outside_dataset_raise fuel n grid rng ds rng' a :
  gen_ds fuel n grid rng = Some (Ok (ds, rng')) →
  (∀ id, ¬ (0 ≤ id < n) → value (oid_to_coord (build a ds) id) = Raise KeyError)
  ∧ (∀ c, c ∉ coords_of ds → value (coord_to_oid (build a ds) c) = Raise KeyError).
Proof.
  intros Hwf%gen_ds_well_formed. split.
  - intros id Hid. apply build_oid_to_coord_absent.
    by rewrite (well_formed_oid n).
  - intros c Hc. by apply build_coord_to_oid_absent.
Qed.

End claims_on_stores.

(** C9 (the integrity check cannot fail).  On a Split store built from a
    dataset whose coordinates are pairwise distinct and in which every id of
    [0 .. n-1] occurs, [full_lookup] of such an id returns: the reverse
    index maps the coordinate found for the id back to that id, so the
    last lookup in the what table succeeds. *)
Theorem split_integrity_check_passes n (ds : list record) id :
  NoDup (coords_of ds) →
  (∀ i, 0 ≤ i < n → i ∈ oids ds) →
  0 ≤ id < n →
  ∃ c f, where_ (Split_init ds) !! id = Some c
       ∧ idx (Split_init ds) !! c = Some id
       ∧ what (Split_init ds) !! id = Some f
       ∧ full_lookup (Split_init ds) id
         = ([T_where; T_what; T_idx; T_what], Ok (c, f)).
Proof.
  intros Hnd Hall Hid. specialize (Hall id Hid).
  destruct (where_present ds id Hall) as [c Hc].
  destruct (what_present ds id Hall) as [f Hf].
  destruct (where_elem ds id c Hc) as [f0 Hrow].
  pose proof (idx_row ds id c f0 Hnd Hrow) as Hidx.
  exists c, f. repeat split; try done.
  change (Split_full_lookup (Split_init ds) id
          = ([T_where; T_what; T_idx; T_what], Ok (c, f))).
  unfold Split_full_lookup.
  rewrite (dict_get_Some T_where _ id c) by done. cbn -[dict_get].
  rewrite (dict_get_Some T_what _ id f) by done. cbn -[dict_get].
  rewrite (dict_get_Some T_idx _ c id) by done. cbn -[dict_get].
  by rewrite (dict_get_Some T_what _ id f) by done.
Qed.

(** ** Float comparisons *)

Section floats.
Implicit Types (x y : spec_float).

Lemma SFcompare_antisym x y : SFcompare y x = CompOpp <$> SFcompare x y.
Proof.
  destruct x as [sx|sx| |sx mx ex], y as [sy|sy| |sy my ey]; simpl;
    try reflexivity; try (by destruct sx); try (by destruct sy);
    try (by destruct sx, sy).
  destruct sx, sy; simpl; try reflexivity;
    rewrite (Z.compare_antisym ex ey); destruct (ex ?= ey); simpl;
    try reflexivity;
    by rewrite (Pos.compare_cont_antisym mx my Eq).
Qed.

Lemma float_lt_ordered x y :
  float_lt x y = true → x ≠ S754_nan ∧ y ≠ S754_nan.
Proof.
  unfold float_lt, SFltb. intros Hlt.
  split; intros ->; [done|]. by destruct x.
Qed.

Lemma float_le_ordered x y :
  float_le x y = true → x ≠ S754_nan ∧ y ≠ S754_nan.
Proof.
  unfold float_le, SFleb. intros Hle.
  split; intros ->; [done|]. by destruct x.
Qed.

Lemma SFcompare_ordered x y :
  x ≠ S754_nan → y ≠ S754_nan → is_Some (SFcompare x y).
Proof. destruct x, y; simpl; intros ??; (done || eauto). Qed.

(** On ordered operands, [not (x < y)] is [y <= x]. *)
Lemma float_not_lt_le x y :
  x ≠ S754_nan → y ≠ S754_nan →
  float_lt x y = false ↔ float_le y x = true.
Proof.
  intros Hx Hy. unfold float_lt, float_le, SFltb, SFleb.
  rewrite (SFcompare_antisym x y).
  destruct (SFcompare_ordered x y Hx Hy) as [[] ->]; simpl; split; congruence.
Qed.

(** [y <= x] excludes [x < y], ordered or not. *)
Lemma float_le_not_lt x y : float_le y x = true → float_lt x y = false.
Proof.
  intros Hle. destruct (float_le_ordered _ _ Hle). by apply float_not_lt_le.
Qed.

Lemma float_add_nan_l y : float_add S754_nan y = S754_nan.
Proof. reflexivity. Qed.

Lemma in_unit_interval_ordered r : in_unit_interval r → r ≠ S754_nan.
Proof. intros [Hle _]. by apply float_le_ordered in Hle as [_ ?]. Qed.

End floats.

(** ** The latency runner *)

Section runner.
Context `{RandomSource} `{MonotonicClock}.
Implicit Types (mem : Mem) (mix : gmap string spec_float) (st : RunState).

Lemma choice_ok {A} (seq : list A) s :
  randbelow_in_range → seq ≠ [] →
  ∃ x s', choice seq s = Ok (x, s') ∧ x ∈ seq.
Proof.
  intros Hrange Hne. unfold choice.
  destruct seq as [|a seq']; [done|].
  set (l := a :: seq') in *.
  specialize (Hrange (Z.of_nat (length l)) s).
  destruct (randbelow (Z.of_nat (length l)) s) as [k s'] eqn:Hk.
  simpl in Hrange.
  destruct (l !! Z.to_nat k) as [x|] eqn:Hx.
  - exists x, s'. split; [done|]. by eapply list_elem_of_lookup_2.
  - apply lookup_ge_None in Hx. subst l. simpl in *. lia.
Qed.

(** A timed call leaves exactly its call in the log, whether the method
    returns or raises. *)
Lemma timed_call_logged {A} (q : query) (m : Acc A) acc st :
  st_calls (run_bind nano_clock (fun t0 =>
            run_bind (invoke q m) (fun _ =>
            run_bind nano_clock (fun t1 =>
            run_ret (acc + (t1 - t0))))) st).2
  = st_calls st ++ [q].
Proof.
  unfold run_bind, nano_clock, invoke, run_ret.
  destruct (perf_counter_ns (st_clock st)) as [t0 c0]. simpl.
  destruct (value m); simpl; [|done].
  by destruct (perf_counter_ns c0).
Qed.

Lemma precompute_coords_ok mem ids st :
  Forall (fun i => is_ok (value (oid_to_coord mem i)) = true) ids →
  ∃ cs st', precompute_coords mem ids st = (Ok cs, st') ∧ length cs = length ids.
Proof.
  intros Hall. revert st.
  induction Hall as [|i ids Hi _ IH]; intros st; cbn [precompute_coords].
  - by exists [], st.
  - unfold run_bind at 1. unfold invoke at 1.
    destruct (value (oid_to_coord mem i)) as [c|e]; [|done].
    unfold run_bind at 1.
    edestruct IH as (cs & st' & -> & Hlen).
    exists (c :: cs), st'. simpl. by rewrite Hlen.
Qed.

Lemma mem_size_build n ds a :
  well_formed n ds → mem_size (build a ds) = Z.of_nat (length ds).
Proof.
  intros Hwf. pose proof (well_formed_NoDup_oids _ _ Hwf) as Hnd.
  destruct a; simpl; f_equal.
  - rewrite dict_of_size by by rewrite id_map_keys. apply length_fmap.
  - rewrite dict_of_size by by rewrite where_keys. apply length_fmap.
Qed.

(** The ids the runner enumerates are the ids of the dataset, so the
    coordinates can be precomputed. *)
Lemma precompute_coords_build n ds a st :
  well_formed n ds →
  ∃ cs st', precompute_coords (build a ds) (seqZ 0 (mem_size (build a ds))) st
            = (Ok cs, st')
          ∧ length cs = length ds.
Proof.
  intros Hwf. rewrite (mem_size_build n) by done.
  destruct (precompute_coords_ok (build a ds) (seqZ 0 (Z.of_nat (length ds))) st)
    as (cs & st' & Heq & Hlen).
  - apply Forall_seqZ. intros i Hi.
    rewrite (well_formed_length n) in Hi by done.
    destruct (well_formed_row n ds i Hwf) as (c & f & Hrow); [lia|].
    by rewrite (build_oid_to_coord_row n ds a i c f).
  - exists cs, st'. split; [done|].
    by rewrite Hlen, length_seqZ, Nat2Z.id.
Qed.

(** Whatever the store, [run] with no query to make does not return a
    latency: either the precomputation raises, or the final division does. *)
Lemma run_zero_queries_never_returns mem mix st :
  is_ok (run mem 0 mix st).1 = false.
Proof.
  unfold run. unfold run_bind at 1.
  destruct (precompute_coords mem (seqZ 0 (mem_size mem)) st) as [[cs|e] st'];
    reflexivity.
Qed.

(** An id the store holds can be looked up; any other id cannot. *)
Lemma oid_to_coord_present mem i :
  i ∈ store_ids mem → is_ok (value (oid_to_coord mem i)) = true.
Proof.
  destruct mem as [u|s]; cbn [store_ids]; intros [v Hv]%elem_of_dom.
  - change (is_ok (value (Unified_oid_to_coord u i)) = true).
    unfold Unified_oid_to_coord, acc_bind, dict_get. by rewrite Hv.
  - change (is_ok (value (Split_oid_to_coord s i)) = true).
    unfold Split_oid_to_coord, dict_get. by rewrite Hv.
Qed.

Lemma oid_to_coord_absent mem i :
  i ∉ store_ids mem → value (oid_to_coord mem i) = Raise KeyError.
Proof.
  destruct mem as [u|s]; cbn [store_ids]; intros Hv%not_elem_of_dom.
  - change (value (Unified_oid_to_coord u i) = Raise KeyError).
    unfold Unified_oid_to_coord, acc_bind, dict_get. by rewrite Hv.
  - change (value (Split_oid_to_coord s i) = Raise KeyError).
    unfold Split_oid_to_coord, dict_get. by rewrite Hv.
Qed.

(** The stores built from generated datasets hold the ids [0 .. size-1]. *)
Lemma generated_store_ids n ds a i :
  well_formed n ds →
  0 ≤ i < mem_size (build a ds) → i ∈ store_ids (build a ds).
Proof.
  intros Hwf Hi. rewrite (mem_size_build n), (well_formed_length n) in Hi by done.
  destruct (well_formed_row n ds i Hwf) as (c & f & Hrow); [lia|].
  pose proof (build_oid_to_coord_row n ds a i c f Hwf Hrow) as Hval.
  destruct (decide (i ∈ store_ids (build a ds))) as [|Hno]; [done|].
  apply oid_to_coord_absent in Hno. congruence.
Qed.

(** C10 (zero queries), as amended.  On every store that holds the ids
    [0 .. size-1], of either layout and however it was built, and for every
    mix, [run] with [total_queries = 0] raises [ZeroDivisionError]: the
    precomputation succeeds, the loop does not run and the final division
    is by zero. *)
Theorem run_zero_queries_raises_on_dense_ids mem mix st :
  (∀ i, 0 ≤ i < mem_size mem → i ∈ store_ids mem) →
  (run mem 0 mix st).1 = Raise ZeroDivisionError.
Proof.
  intros Hdense. unfold run.
  destruct (precompute_coords_ok mem (seqZ 0 (mem_size mem)) st)
    as (cs & st' & Hpre & _).
  { apply Forall_seqZ. intros i Hi. apply oid_to_coord_present, Hdense. lia. }
  unfold run_bind at 1. by rewrite Hpre.
Qed.

(** Every iteration of the loop is [run_query], entered in the state the
    previous iteration left; an exception ends the loop. *)
Lemma run_loop_step iterations mem mix ids coords acc st :
  run_loop (S iterations) mem mix ids coords acc st =
  match run_query mem mix ids coords acc st with
  | (Ok acc', st') => run_loop iterations mem mix ids coords acc' st'
  | (Raise e, st') => (Raise e, st')
  end.
Proof. reflexivity. Qed.

(** C5 (classification order).  One iteration of the query loop, on a
    non-empty store and a mix holding both boundaries, issues exactly one
    call on the store.  With [r] the float drawn for the iteration, the
    call is [coord_to_oid] iff [r < mix["w2what"]], [oid_to_coord] iff
    [mix["w2what"] <= r < mix["w2what"] + mix["what2w"]], and
    [full_lookup] otherwise; its argument is one of the precomputed
    coordinates, respectively ids. *)
Theorem run_query_classification mem mix ids coords acc st w2what what2w :
  randbelow_in_range →
  mix !! "w2what"%string = Some w2what →
  mix !! "what2w"%string = Some what2w →
  ids ≠ [] → coords ≠ [] →
  in_unit_interval (random (st_rng st)).1 →
  let r := (random (st_rng st)).1 in
  ∃ q, st_calls (run_query mem mix ids coords acc st).2 = st_calls st ++ [q]
     ∧ (kind_of q = W2What ↔ float_lt r w2what = true)
     ∧ (kind_of q = What2W ↔
          float_le w2what r = true ∧ float_lt r (float_add w2what what2w) = true)
     ∧ (kind_of q = Integrated ↔
          float_lt r w2what = false
          ∧ ¬ (float_le w2what r = true ∧ float_lt r (float_add w2what what2w) = true))
     ∧ match q with
       | Q_coord_to_oid c => c ∈ coords
       | Q_oid_to_coord o | Q_full_lookup o => o ∈ ids
       end.
Proof.
  intros Hrange Hw Hh Hids Hcoords Hunit r.
  pose proof (in_unit_interval_ordered _ Hunit) as Hr. fold r in Hr.
  unfold run_query. unfold run_bind at 1. unfold rng_random.
  destruct (random (st_rng st)) as [r0 s1] eqn:Hdraw. simpl in r. subst r.
  set (st1 := mkRunState s1 (st_clock st) (st_calls st) (st_accesses st)
                        (st_trace st ++ [E_random])).
  unfold run_bind at 1. unfold mix_get at 1. rewrite Hw. unfold run_lift at 1.
  destruct (float_lt r0 w2what) eqn:Hlt.
  - (* r < w2what *)
    destruct (choice_ok coords s1 Hrange Hcoords) as (c & s2 & Hch & Hin).
    unfold run_bind at 1. unfold rng_choice at 1. simpl st_rng. rewrite Hch.
    exists (Q_coord_to_oid c). rewrite timed_call_logged. simpl.
    repeat split; try done.
    + intros [Hle _]. apply float_le_not_lt in Hle. congruence.
    + by intros [? _].
  - unfold run_bind at 1. unfold mix_get at 1. rewrite Hw. unfold run_lift at 1.
    unfold run_bind at 1. unfold mix_get at 1. rewrite Hh. unfold run_lift at 1.
    destruct (choice_ok ids s1 Hrange Hids) as (o & s2 & Hch & Hin).
    destruct (float_lt r0 (float_add w2what what2w)) eqn:Hlt2.
    + (* w2what <= r < w2what + what2w *)
      unfold run_bind at 1. unfold rng_choice at 1. simpl st_rng. rewrite Hch.
      exists (Q_oid_to_coord o). rewrite timed_call_logged. simpl.
      assert (float_le w2what r0 = true) as Hle.
      { apply float_not_lt_le; [done| |done].
        intros ->. by rewrite float_add_nan_l in Hlt2; destruct r0. }
      repeat split; try done. by intros [_ []].
    + (* otherwise *)
      unfold run_bind at 1. unfold rng_choice at 1. simpl st_rng. rewrite Hch.
      exists (Q_full_lookup o). rewrite timed_call_logged. simpl.
      repeat split; try done; by intros [_ ?].
Qed.

End runner.

(** ** The properties on a concrete run

    The dataset [example_ds] is what [gen_ds 5 4] returns on the concrete
    runtime from seed 23; the statements above are instantiated on it. *)

Example example_gen_ds :
  @gen_ds lcg 10 5 4 (@Random lcg 23) = Some (Ok (example_ds, example_rng)).
Proof. vm_compute. reflexivity. Qed.

Example example_coords :
  coords_of example_ds = [(3, 4); (0, 1); (2, 4); (0, 0); (1, 2)].
Proof. reflexivity. Qed.

Example example_labels :
  rec_label <$> take 2 example_ds
  = [ljust "obj0000000" 128 "X"%char; ljust "obj0000001" 128 "X"%char].
Proof. reflexivity. Qed.

(** With a bound of one draw per object the same run gives up: the first
    draw for the fourth object repeats the coordinate of the third. *)
Example example_out_of_fuel :
  @gen_ds lcg 1 5 4 (@Random lcg 23) = None.
Proof. vm_compute. reflexivity. Qed.

(** An empty range of coordinates: [randint] raises at the first draw. *)
Example example_negative_grid :
  @gen_ds lcg 10 5 (-1) (@Random lcg 23) = Some (Raise ValueError).
Proof. vm_compute. reflexivity. Qed.

(** A model kind that is neither layout. *)
Example example_unknown_arch :
  @one lcg step_clock 10 23 5 10 mix_example 4 "Hybrid" 0 = Some (Raise ValueError).
Proof. vm_compute. reflexivity. Qed.

(** The division of two ints rounds once, the exact quotient: here
    [2^53 + 1], a tie that goes to the even neighbour [2^53], where the
    quotient of the two converted operands would be [2^53 + 2]. *)
Example example_int_truediv_rounds_once :
  int_truediv 27021597764222979 3 = Ok (float_of_int 9007199254740992)
  ∧ SFdiv prec64 emax64 (float_of_int 27021597764222979) (float_of_int 3)
    = float_of_int 9007199254740994.
Proof. split; vm_compute; reflexivity. Qed.

(** A quotient outside the range of a float, a quotient of large operands
    inside it, and a zero dividend. *)
Example example_int_truediv_range :
  int_truediv (10 ^ 400) 1 = Raise OverflowError
  ∧ int_truediv (10 ^ 400) (10 ^ 399) = Ok (float_of_int 10)
  ∧ int_truediv 0 (-5) = Ok (S754_zero true)
  ∧ int_truediv 5 0 = Raise ZeroDivisionError.
Proof. repeat split; vm_compute; reflexivity. Qed.

Lemma lcg_randbelow_in_range : @randbelow_in_range lcg.
Proof.
  intros k s Hk. simpl. unfold lcg_randbelow. simpl.
  apply Z.mod_pos_bound. lia.
Qed.

Lemma gen_ds_coords_distinct_example :
  @gen_ds lcg 10 5 4 (@Random lcg 23) = Some (Ok (example_ds, example_rng))
  ∧ length example_ds = 5%nat ∧ NoDup (coords_of example_ds).
Proof.
  split; [vm_compute; reflexivity|].
  apply (@gen_ds_coords_distinct lcg 10 5 4 (@Random lcg 23) example_ds example_rng).
  vm_compute. reflexivity.
Defined.

Lemma coord_to_oid_oid_to_coord_example :
  value (let! c := oid_to_coord (build ArchSplit example_ds) 3 in
         coord_to_oid (build ArchSplit example_ds) c)%acc = Ok 3
  ∧ value (let! c := oid_to_coord (build ArchUnified example_ds) 3 in
           coord_to_oid (build ArchUnified example_ds) c)%acc = Ok 3.
Proof.
  split.
  - apply (@coord_to_oid_oid_to_coord lcg 10 5 4 (@Random lcg 23)
             example_ds example_rng ArchSplit 3); [vm_compute; reflexivity | lia].
  - apply (@coord_to_oid_oid_to_coord lcg 10 5 4 (@Random lcg 23)
             example_ds example_rng ArchUnified 3); [vm_compute; reflexivity | lia].
Defined.

Lemma full_lookup_layouts_agree_example :
  ∃ c f, (3, c, f) ∈ example_ds
       ∧ value (full_lookup (build ArchUnified example_ds) 3) = Ok (c, f)
       ∧ value (full_lookup (build ArchSplit example_ds) 3) = Ok (c, f).
Proof.
  apply (@full_lookup_layouts_agree lcg 10 5 4 (@Random lcg 23)
           example_ds example_rng 3); [vm_compute; reflexivity | lia].
Defined.

Lemma split_full_lookup_costs_more_example :
  accesses (full_lookup (build ArchUnified example_ds) 2) = [T_id_map]
  ∧ accesses (full_lookup (build ArchSplit example_ds) 2)
    = [T_where; T_what; T_idx; T_what]
  ∧ (length (accesses (full_lookup (build ArchUnified example_ds) 2)) = 1)%nat
  ∧ (length (accesses (full_lookup (build ArchUnified example_ds) 2))
     < length (accesses (full_lookup (build ArchSplit example_ds) 2)))%nat
  ∧ (2 ≤ length (accesses (full_lookup (build ArchSplit example_ds) 2)))%nat.
Proof.
  apply (@split_full_lookup_costs_more lcg 10 5 4 (@Random lcg 23)
           example_ds example_rng 2); [vm_compute; reflexivity | lia].
Defined.

Lemma lookups_outside_dataset_raise_example :
  value (oid_to_coord (build ArchSplit example_ds) 5) = Raise KeyError
  ∧ value (oid_to_coord (build ArchUnified example_ds) (-1)) = Raise KeyError
  ∧ value (coord_to_oid (build ArchSplit example_ds) (4, 4)) = Raise KeyError
  ∧ value (coord_to_oid (build ArchUnified example_ds) (7, 0)) = Raise KeyError.
Proof.
  assert (∀ a,
    (∀ id, ¬ (0 ≤ id < 5) → value (oid_to_coord (build a example_ds) id) = Raise KeyError)
    ∧ (∀ c, c ∉ coords_of example_ds →
            value (coord_to_oid (build a example_ds) c) = Raise KeyError)) as Hraise.
  { intros a.
    apply (@lookups_outside_dataset_raise lcg 10 5 4 (@Random lcg 23)
             example_ds example_rng a).
    vm_compute. reflexivity. }
  split; [|split; [|split]].
  - apply (proj1 (Hraise ArchSplit)). lia.
  - apply (proj1 (Hraise ArchUnified)). lia.
  - apply (proj2 (Hraise ArchSplit)).
    apply (bool_decide_unpack _). vm_compute. exact I.
  - apply (proj2 (Hraise ArchUnified)).
    apply (bool_decide_unpack _). vm_compute. exact I.
Defined.

Lemma split_integrity_check_passes_example :
  ∃ c f, where_ (Split_init example_ds) !! 4 = Some c
       ∧ idx (Split_init example_ds) !! c = Some 4
       ∧ what (Split_init example_ds) !! 4 = Some f
       ∧ full_lookup (Split_init example_ds) 4
         = ([T_where; T_what; T_idx; T_what], Ok (c, f)).
Proof.
  apply (split_integrity_check_passes 5 example_ds 4).
  - apply (bool_decide_unpack _). vm_compute. exact I.
  - intros i Hi.
    replace (oids example_ds) with (seqZ 0 5) by (vm_compute; reflexivity).
    apply elem_of_seqZ. lia.
  - lia.
Defined.

Lemma run_zero_queries_raises_on_dense_ids_example :
  (@run lcg step_clock (build ArchSplit example_ds) 0 mix_example
        example_state).1
  = Raise ZeroDivisionError.
Proof.
  apply (@run_zero_queries_raises_on_dense_ids lcg step_clock
           (build ArchSplit example_ds) mix_example example_state).
  intros i Hi. change (mem_size (build ArchSplit example_ds)) with 5 in Hi.
  assert (i = 0 ∨ i = 1 ∨ i = 2 ∨ i = 3 ∨ i = 4) as Hcases by lia.
  destruct Hcases as [-> | [-> | [-> | [-> | ->]]]];
    apply (bool_decide_unpack _); vm_compute; exact I.
Defined.

(** The claim C10 as it is stated, for every store, fails: on the Split
    store of [sparse_ds], which holds the ids 0 and 5, [run] with no query
    raises [KeyError] while precomputing the coordinate of id 1, before it
    reaches the division. *)
Lemma run_zero_queries_sparse_ids_counterexample :
  (@run lcg step_clock (build ArchSplit sparse_ds) 0 mix_example
        example_state).1
  = Raise KeyError
  ∧ (@run lcg step_clock (build ArchSplit sparse_ds) 0 mix_example
          example_state).1
    ≠ Raise ZeroDivisionError.
Proof. split; [vm_compute; reflexivity|]. vm_compute. discriminate. Qed.

Lemma run_query_classification_example :
  in_unit_interval example_draw
  ∧ ∃ q, st_calls (@run_query lcg step_clock (build ArchSplit example_ds)
                     mix_example (seqZ 0 5) (coords_of example_ds) 0
                     example_state).2
         = st_calls example_state ++ [q]
       ∧ (kind_of q = W2What ↔ float_lt example_draw p_three_eighths = true)
       ∧ (kind_of q = What2W ↔
            float_le p_three_eighths example_draw = true
            ∧ float_lt example_draw (float_add p_three_eighths p_three_eighths) = true)
       ∧ (kind_of q = Integrated ↔
            float_lt example_draw p_three_eighths = false
            ∧ ¬ (float_le p_three_eighths example_draw = true
                 ∧ float_lt example_draw (float_add p_three_eighths p_three_eighths) = true))
       ∧ match q with
         | Q_coord_to_oid c => c ∈ coords_of example_ds
         | Q_oid_to_coord o | Q_full_lookup o => o ∈ seqZ 0 5
         end.
Proof.
  assert (in_unit_interval example_draw) as Hunit
    by (split; vm_compute; reflexivity).
  split; [exact Hunit|].
  apply (@run_query_classification lcg step_clock (build ArchSplit example_ds)
           mix_example (seqZ 0 5) (coords_of example_ds) 0 example_state
           p_three_eighths p_three_eighths).
  - exact lcg_randbelow_in_range.
  - vm_compute. reflexivity.
  - vm_compute. reflexivity.
  - discriminate.
  - discriminate.
  - exact Hunit.
Defined.

(** * Further properties of the stores *)

(** ** Comprehensions with repeated keys *)

Section dict_of_repeats.
Context `{Countable K} {V : Type}.
Implicit Types (items : list (K * V)) (k : K) (v : V).

Lemma dict_of_app items1 items2 :
  dict_of (items1 ++ items2)
  = fold_left (fun d kv => <[kv.1 := kv.2]> d) items2 (dict_of items1).
Proof. unfold dict_of. by rewrite fold_left_app. Qed.

Lemma fold_insert_other items (d : gmap K V) k :
  k ∉ items.*1 →
  fold_left (fun d kv => <[kv.1 := kv.2]> d) items d !! k = d !! k.
Proof.
  revert d. induction items as [|[k' v'] items IH]; intros d Hk; [done|].
  csimpl in Hk. apply not_elem_of_cons in Hk as [Hne Hk].
  simpl. rewrite IH by done. by rewrite lookup_insert_ne.
Qed.

(** The last item with a given key is the one the dictionary keeps. *)
Lemma dict_of_last items1 items2 k v :
  k ∉ items2.*1 → dict_of (items1 ++ (k, v) :: items2) !! k = Some v.
Proof.
  intros Hk. rewrite dict_of_app. simpl.
  rewrite fold_insert_other by done. apply lookup_insert_eq.
Qed.

Lemma dict_of_fmap {W} (g : V → W) items :
  dict_of (prod_map id g <$> items) = g <$> dict_of items.
Proof.
  induction items as [|[k v] items IH] using rev_ind;
    [symmetry; apply fmap_empty|].
  rewrite fmap_app. csimpl. by rewrite !dict_of_snoc, IH, fmap_insert.
Qed.

Lemma dict_of_dom items : dom (dict_of items) = list_to_set items.*1.
Proof.
  induction items as [|[k v] items IH] using rev_ind; [apply dom_empty_L|].
  rewrite dict_of_snoc, dom_insert_L, IH, fmap_app, list_to_set_app_L.
  csimpl. rewrite union_empty_r_L. apply (comm_L _).
Qed.

End dict_of_repeats.

(** ** The tables of the Split store are projections of the Unified ones *)

Section projections.
Implicit Types (ds : list record) (oid : Z) (c : coord) (f : string).

Lemma where_id_map ds : where_ (Split_init ds) = fst <$> id_map (Unified_init ds).
Proof.
  simpl. rewrite <- dict_of_fmap. f_equal.
  rewrite <- list_fmap_compose. apply list_fmap_ext. by intros ? [[??]?] ?.
Qed.

Lemma what_id_map ds : what (Split_init ds) = snd <$> id_map (Unified_init ds).
Proof.
  simpl. rewrite <- dict_of_fmap. f_equal.
  rewrite <- list_fmap_compose. apply list_fmap_ext. by intros ? [[??]?] ?.
Qed.

Lemma idx_coord_map ds : idx (Split_init ds) = fst <$> coord_map (Unified_init ds).
Proof.
  simpl. rewrite <- dict_of_fmap. f_equal.
  rewrite <- list_fmap_compose. apply list_fmap_ext. by intros ? [[??]?] ?.
Qed.

Lemma coord_map_elem ds oid c f :
  coord_map (Unified_init ds) !! c = Some (oid, f) → (oid, c, f) ∈ ds.
Proof.
  intros Hl. apply dict_of_lookup_elem, list_elem_of_fmap in Hl.
  destruct Hl as ([[o c'] f'] & [= -> -> ->] & Hin). done.
Qed.

Lemma id_map_present ds oid :
  oid ∈ oids ds → is_Some (id_map (Unified_init ds) !! oid).
Proof. intros Hin. apply dict_of_lookup_is_Some. by rewrite id_map_keys. Qed.

Lemma coord_map_present ds c :
  c ∈ coords_of ds → is_Some (coord_map (Unified_init ds) !! c).
Proof. intros Hin. apply dict_of_lookup_is_Some. by rewrite coord_map_keys. Qed.

(** The outcome of each method, read off the tables of the Unified store. *)
Lemma unified_oid_to_coord_value ds oid :
  value (oid_to_coord (Unified_init ds) oid)
  = match id_map (Unified_init ds) !! oid with
    | Some e => Ok e.1
    | None => Raise KeyError
    end.
Proof.
  change (oid_to_coord (Unified_init ds) oid)
    with (Unified_oid_to_coord (Unified_init ds) oid).
  unfold Unified_oid_to_coord, dict_get.
  by destruct (id_map (Unified_init ds) !! oid).
Qed.

Lemma split_oid_to_coord_value ds oid :
  value (oid_to_coord (Split_init ds) oid)
  = match id_map (Unified_init ds) !! oid with
    | Some e => Ok e.1
    | None => Raise KeyError
    end.
Proof.
  change (oid_to_coord (Split_init ds) oid)
    with (Split_oid_to_coord (Split_init ds) oid).
  unfold Split_oid_to_coord, dict_get. rewrite where_id_map, lookup_fmap.
  by destruct (id_map (Unified_init ds) !! oid).
Qed.

Lemma unified_coord_to_oid_value ds c :
  value (coord_to_oid (Unified_init ds) c)
  = match coord_map (Unified_init ds) !! c with
    | Some e => Ok e.1
    | None => Raise KeyError
    end.
Proof.
  change (coord_to_oid (Unified_init ds) c)
    with (Unified_coord_to_oid (Unified_init ds) c).
  unfold Unified_coord_to_oid, dict_get.
  by destruct (coord_map (Unified_init ds) !! c).
Qed.

Lemma split_coord_to_oid_value ds c :
  value (coord_to_oid (Split_init ds) c)
  = match coord_map (Unified_init ds) !! c with
    | Some e => Ok e.1
    | None => Raise KeyError
    end.
Proof.
  change (coord_to_oid (Split_init ds) c)
    with (Split_coord_to_oid (Split_init ds) c).
  unfold Split_coord_to_oid, dict_get. rewrite idx_coord_map, lookup_fmap.
  by destruct (coord_map (Unified_init ds) !! c).
Qed.

Lemma unified_full_lookup_any ds oid :
  full_lookup (Unified_init ds) oid
  = ([T_id_map],
     match id_map (Unified_init ds) !! oid with
     | Some e => Ok e
     | None => Raise KeyError
     end).
Proof. reflexivity. Qed.

(** On any dataset the join of the Split store finds what the Unified
    table holds, and its integrity check goes through: the coordinate found
    is a key of the index, and the id the index gives is a key of [what]. *)
Lemma split_full_lookup_any ds oid :
  full_lookup (Split_init ds) oid
  = match id_map (Unified_init ds) !! oid with
    | Some e => ([T_where; T_what; T_idx; T_what], Ok e)
    | None => ([T_where], Raise KeyError)
    end.
Proof.
  change (full_lookup (Split_init ds) oid)
    with (Split_full_lookup (Split_init ds) oid).
  unfold Split_full_lookup.
  destruct (id_map (Unified_init ds) !! oid) as [[c f]|] eqn:Hid.
  - assert (where_ (Split_init ds) !! oid = Some c) as Hwhere
      by by rewrite where_id_map, lookup_fmap, Hid.
    assert (what (Split_init ds) !! oid = Some f) as Hwhat
      by by rewrite what_id_map, lookup_fmap, Hid.
    apply id_map_elem in Hid as Hrow.
    destruct (coord_map_present ds c) as [[oid2 f2] Hc];
      [apply elem_of_coords_of; eauto|].
    assert (idx (Split_init ds) !! c = Some oid2) as Hidx
      by by rewrite idx_coord_map, lookup_fmap, Hc.
    apply coord_map_elem in Hc as Hrow2.
    destruct (what_present ds oid2) as [f3 Hwhat2];
      [apply elem_of_oids; eauto|].
    rewrite (dict_get_Some T_where _ oid c) by done. cbn -[dict_get].
    rewrite (dict_get_Some T_what _ oid f) by done. cbn -[dict_get].
    rewrite (dict_get_Some T_idx _ c oid2) by done. cbn -[dict_get].
    by rewrite (dict_get_Some T_what _ oid2 f3) by done.
  - assert (where_ (Split_init ds) !! oid = None) as Hwhere
      by by rewrite where_id_map, lookup_fmap, Hid.
    by rewrite (dict_get_None T_where _ oid) by done.
Qed.

End projections.

(** ** Stores built from any list of rows *)

Section any_dataset.
Implicit Types (ds : list record) (a : arch) (oid : Z) (c : coord) (f : string).

Lemma build_oid_to_coord_value ds a oid :
  value (oid_to_coord (build a ds) oid)
  = match id_map (Unified_init ds) !! oid with
    | Some e => Ok e.1
    | None => Raise KeyError
    end.
Proof.
  destruct a; [apply unified_oid_to_coord_value|apply split_oid_to_coord_value].
Qed.

Lemma build_coord_to_oid_value ds a c :
  value (coord_to_oid (build a ds) c)
  = match coord_map (Unified_init ds) !! c with
    | Some e => Ok e.1
    | None => Raise KeyError
    end.
Proof.
  destruct a; [apply unified_coord_to_oid_value|apply split_coord_to_oid_value].
Qed.

Lemma build_full_lookup_value ds a oid :
  value (full_lookup (build a ds) oid)
  = match id_map (Unified_init ds) !! oid with
    | Some e => Ok e
    | None => Raise KeyError
    end.
Proof.
  destruct a.
  - change (full_lookup (build ArchUnified ds) oid)
      with (full_lookup (Unified_init ds) oid).
    by rewrite unified_full_lookup_any.
  - change (full_lookup (build ArchSplit ds) oid)
      with (full_lookup (Split_init ds) oid).
    rewrite split_full_lookup_any.
    by destruct (id_map (Unified_init ds) !! oid).
Qed.

(** X1.  The two layouts cannot be told apart by the outcome of a call:
    on stores built from the same list of rows, whatever the list (ids or
    coordinates may repeat) and whatever the argument, each of the three
    methods returns the same value or raises the same exception. *)
Theorem layouts_observationally_equal ds oid c :
  value (oid_to_coord (build ArchUnified ds) oid)
  = value (oid_to_coord (build ArchSplit ds) oid)
  ∧ value (coord_to_oid (build ArchUnified ds) c)
    = value (coord_to_oid (build ArchSplit ds) c)
  ∧ value (full_lookup (build ArchUnified ds) oid)
    = value (full_lookup (build ArchSplit ds) oid).
Proof.
  by rewrite !build_oid_to_coord_value, !build_coord_to_oid_value,
    !build_full_lookup_value.
Qed.

(** X2.  A lookup raises exactly when its key is absent, and then
    the exception is [KeyError]; a value that is returned comes from a row
    of the dataset.  This holds for any list of rows and both layouts. *)
Theorem lookup_outcomes ds a oid c :
  (oid ∈ oids ds →
     ∃ c' f', (oid, c', f') ∈ ds
            ∧ value (oid_to_coord (build a ds) oid) = Ok c'
            ∧ value (full_lookup (build a ds) oid) = Ok (c', f'))
  ∧ (oid ∉ oids ds →
       value (oid_to_coord (build a ds) oid) = Raise KeyError
       ∧ value (full_lookup (build a ds) oid) = Raise KeyError)
  ∧ (c ∈ coords_of ds →
       ∃ oid' f', (oid', c, f') ∈ ds
                ∧ value (coord_to_oid (build a ds) c) = Ok oid')
  ∧ (c ∉ coords_of ds →
       value (coord_to_oid (build a ds) c) = Raise KeyError).
Proof.
  rewrite build_oid_to_coord_value, build_full_lookup_value,
    build_coord_to_oid_value.
  split; [|split; [|split]].
  - intros [[c' f'] Hid]%id_map_present. rewrite Hid.
    exists c', f'. split; [by apply id_map_elem|done].
  - intros Hid%id_map_absent. by rewrite Hid.
  - intros [[oid' f'] Hc]%coord_map_present. rewrite Hc.
    exists oid', f'. split; [by apply coord_map_elem|done].
  - intros Hc%coord_map_absent. by rewrite Hc.
Qed.

(** X3.  When an id occurs in several rows, the lookups by id answer with
    the last of them; when a coordinate occurs in several rows, the lookup
    by coordinate answers with the id of the last of them. *)
Theorem last_row_wins ds1 ds2 a oid c f :
  (oid ∉ oids ds2 →
     value (oid_to_coord (build a (ds1 ++ (oid, c, f) :: ds2)) oid) = Ok c
     ∧ value (full_lookup (build a (ds1 ++ (oid, c, f) :: ds2)) oid) = Ok (c, f))
  ∧ (c ∉ coords_of ds2 →
       value (coord_to_oid (build a (ds1 ++ (oid, c, f) :: ds2)) c) = Ok oid).
Proof.
  rewrite build_oid_to_coord_value, build_full_lookup_value,
    build_coord_to_oid_value.
  split.
  - intros Hlast.
    assert (id_map (Unified_init (ds1 ++ (oid, c, f) :: ds2)) !! oid
            = Some (c, f)) as ->; [|done].
    cbn [id_map Unified_init]. rewrite fmap_app, fmap_cons.
    apply dict_of_last. by rewrite id_map_keys.
  - intros Hlast.
    assert (coord_map (Unified_init (ds1 ++ (oid, c, f) :: ds2)) !! c
            = Some (oid, f)) as ->; [|done].
    cbn [coord_map Unified_init]. rewrite fmap_app, fmap_cons.
    apply dict_of_last. by rewrite coord_map_keys.
Qed.

(** X4.  The cost of a call in table accesses, on any list of rows: one
    for [oid_to_coord] and for [coord_to_oid] on either layout, and one for
    [full_lookup] on the Unified layout, whether the key is found or not;
    on the Split layout [full_lookup] makes four accesses when the id is
    present and stops after the first one, raising, when it is absent. *)
Theorem access_counts ds a oid c :
  length (accesses (oid_to_coord (build a ds) oid)) = 1%nat
  ∧ length (accesses (coord_to_oid (build a ds) c)) = 1%nat
  ∧ accesses (full_lookup (build ArchUnified ds) oid) = [T_id_map]
  ∧ accesses (full_lookup (build ArchSplit ds) oid)
    = if decide (oid ∈ oids ds) then [T_where; T_what; T_idx; T_what]
      else [T_where].
Proof.
  split; [|split; [|split]].
  - destruct a.
    + change (oid_to_coord (build ArchUnified ds) oid)
        with (Unified_oid_to_coord (Unified_init ds) oid).
      unfold Unified_oid_to_coord, dict_get.
      by destruct (id_map (Unified_init ds) !! oid).
    + reflexivity.
  - destruct a.
    + change (coord_to_oid (build ArchUnified ds) c)
        with (Unified_coord_to_oid (Unified_init ds) c).
      unfold Unified_coord_to_oid, dict_get.
      by destruct (coord_map (Unified_init ds) !! c).
    + reflexivity.
  - reflexivity.
  - change (full_lookup (build ArchSplit ds) oid)
      with (full_lookup (Split_init ds) oid).
    rewrite split_full_lookup_any. case_decide as Hin.
    + by destruct (id_map_present ds oid Hin) as [e ->].
    + by rewrite id_map_absent.
Qed.

Lemma size_list_to_set_le (l : list Z) :
  (size (list_to_set (C:=gset Z) l) ≤ length l)%nat.
Proof.
  induction l as [|x l IH]; [done|].
  cbn [list_to_set length]. rewrite size_union_alt, size_singleton.
  assert (size (list_to_set (C:=gset Z) l ∖ {[x]})
          ≤ size (list_to_set (C:=gset Z) l))%nat
    by apply subseteq_size, subseteq_difference_l, reflexivity.
  lia.
Qed.

(** X5.  The size [run] reads off a store is the number of distinct ids of
    the rows it was built from, on both layouts; it is at most the number
    of rows. *)
Theorem mem_size_counts_ids ds a :
  mem_size (build a ds) = Z.of_nat (size (list_to_set (C:=gset Z) (oids ds)))
  ∧ mem_size (build a ds) ≤ Z.of_nat (length ds).
Proof.
  assert (mem_size (build a ds)
          = Z.of_nat (size (list_to_set (C:=gset Z) (oids ds)))) as Hsize.
  { destruct a; cbn [mem_size build]; f_equal.
    - rewrite <- (size_dom (D:=gset Z)). cbn [id_map Unified_init].
      by rewrite dict_of_dom, id_map_keys.
    - rewrite <- (size_dom (D:=gset Z)). cbn [where_ Split_init].
      by rewrite dict_of_dom, where_keys. }
  split; [done|]. rewrite Hsize.
  pose proof (size_list_to_set_le (oids ds)) as Hle.
  unfold oids in Hle at 2. rewrite length_fmap in Hle. lia.
Qed.

End any_dataset.

(** ** Generated datasets *)

Section generated.
Context `{RandomSource}.
Implicit Types (ds : list record) (a : arch).

(** X6.  The round trip in the other direction: on a store of either
    layout built from a generated dataset, [oid_to_coord(coord_to_oid(c))]
    is [c] for every coordinate [c] of the dataset. *)
Theorem oid_to_coord_coord_to_oid fuel n grid rng ds rng' a c :
  gen_ds fuel n grid rng = Some (Ok (ds, rng')) →
  c ∈ coords_of ds →
  value (let! o := coord_to_oid (build a ds) c in
         oid_to_coord (build a ds) o)%acc = Ok c.
Proof.
  intros Hwf%gen_ds_well_formed (oid & f & Hrow)%elem_of_coords_of.
  rewrite (value_bind_ok _ _ oid) by eauto using build_coord_to_oid_row.
  eauto using build_oid_to_coord_row.
Qed.

(** X7.  The rows of a generated dataset carry the ids [0 .. n-1] in
    generation order: the row at position [i] has id [i] and the label
    built from [i]; and a store of either layout built from it reports
    [n] objects (none for a negative [n]). *)
Theorem gen_ds_rows fuel n grid rng ds rng' :
  gen_ds fuel n grid rng = Some (Ok (ds, rng')) →
  oids ds = seqZ 0 n
  ∧ (∀ (i : nat) r, ds !! i = Some r →
       rec_oid r = Z.of_nat i ∧ rec_label r = feature (Z.of_nat i))
  ∧ (∀ a, mem_size (build a ds) = Z.max 0 n).
Proof.
  intros Hwf%gen_ds_well_formed. split; [by apply (wf_oids n)|]. split.
  - intros i r Hi.
    assert (rec_oid r = Z.of_nat i) as Hoid.
    { assert (oids ds !! i = Some (rec_oid r)) as Hl
        by (unfold oids; by rewrite list_lookup_fmap, Hi).
      rewrite (wf_oids n ds Hwf) in Hl. apply lookup_seqZ in Hl. lia. }
    split; [done|]. rewrite <- Hoid.
    apply (proj1 (Forall_forall _ _) (wf_labels n ds Hwf)).
    by eapply list_elem_of_lookup_2.
  - intros a. rewrite (mem_size_build n) by done.
    rewrite (well_formed_length n) by done. lia.
Qed.

(** X11.  The edges of the input range.  With nothing to generate
    ([n <= 0]) the result is the empty dataset and the generator is not
    touched, whatever the grid.  With something to generate and a negative
    [grid], the first draw raises [ValueError]. *)
Theorem gen_ds_edge_cases fuel n grid rng :
  (n ≤ 0 → gen_ds fuel n grid rng = Some (Ok ([], rng)))
  ∧ (0 < n → grid < 0 → gen_ds (S fuel) n grid rng = Some (Raise ValueError)).
Proof.
  unfold gen_ds. split.
  - intros Hn. by rewrite seqZ_nil.
  - intros Hn Hg. rewrite seqZ_cons by done. cbn [gen_rows draw_unused].
    unfold randint. by rewrite (proj2 (Z.ltb_lt grid 0) Hg).
Qed.

End generated.

(** * Further properties of the runner *)

Section run_query_facts.
Context `{RandomSource} `{MonotonicClock}.
Implicit Types (mem : Mem) (mix : gmap string spec_float) (st : RunState).

(** A timed call, when the method returns. *)
Lemma timed_call_ok {A} (q : query) (m : Acc A) acc s c calls log tr :
  is_ok (value m) = true →
  run_bind nano_clock (fun t0 =>
    run_bind (invoke q m) (fun _ =>
    run_bind nano_clock (fun t1 =>
    run_ret (acc + (t1 - t0)))))
    (mkRunState s c calls log tr)
  = (Ok (acc + ((perf_counter_ns (tick c)).1 - (perf_counter_ns c).1)),
     mkRunState s (tick (tick c)) (calls ++ [q]) (log ++ accesses m)
       (tr ++ [E_clock (perf_counter_ns c).1; E_call q;
               E_clock (perf_counter_ns (tick c)).1])).
Proof.
  intros Hok. unfold run_bind, nano_clock, invoke, run_ret, tick. simpl.
  destruct (perf_counter_ns c) as [t0 c0]. simpl.
  destruct (value m); [|done]. simpl.
  destruct (perf_counter_ns c0) as [t1 c1]. simpl.
  by rewrite <- !app_assoc.
Qed.

(** A timed call that returns a new total: the method returned, and the
    state is the one of [timed_call_ok]. *)
Lemma timed_call_inv {A} (q : query) (m : Acc A) acc s c calls log tr acc' st' :
  run_bind nano_clock (fun t0 =>
    run_bind (invoke q m) (fun _ =>
    run_bind nano_clock (fun t1 =>
    run_ret (acc + (t1 - t0)))))
    (mkRunState s c calls log tr) = (Ok acc', st') →
  acc' = acc + ((perf_counter_ns (tick c)).1 - (perf_counter_ns c).1)
  ∧ st' = mkRunState s (tick (tick c)) (calls ++ [q]) (log ++ accesses m)
            (tr ++ [E_clock (perf_counter_ns c).1; E_call q;
                    E_clock (perf_counter_ns (tick c)).1]).
Proof.
  destruct (is_ok (value m)) eqn:Hok.
  - rewrite (timed_call_ok q m acc) by done. by intros [= <- <-].
  - unfold run_bind, nano_clock, invoke. simpl.
    destruct (perf_counter_ns c) as [t0 c0]. simpl.
    by destruct (value m).
Qed.

(** An iteration whose draws select [q] and whose call returns. *)
Lemma run_query_selected mem mix ids coords acc st q s' :
  next_query mix ids coords (st_rng st) = Ok (q, s') →
  call_ok mem q = true →
  run_query mem mix ids coords acc st
  = (Ok (acc + ((perf_counter_ns (tick (st_clock st))).1
                - (perf_counter_ns (st_clock st)).1)),
     mkRunState s' (tick (tick (st_clock st)))
       (st_calls st ++ [q]) (st_accesses st ++ call_log mem q)
       (st_trace st
        ++ [E_random; E_choice; E_clock (perf_counter_ns (st_clock st)).1;
            E_call q; E_clock (perf_counter_ns (tick (st_clock st))).1])).
Proof.
  unfold next_query, run_query. unfold run_bind at 1. unfold rng_random.
  destruct (random (st_rng st)) as [r s1].
  unfold run_bind at 1. unfold mix_get at 1. unfold run_lift at 1.
  destruct (mix !! "w2what"%string) as [w|] eqn:Hw; [|done].
  destruct (float_lt r w).
  - unfold run_bind at 1. unfold rng_choice at 1. simpl st_rng.
    destruct (choice coords s1) as [[c s2]|e]; [|done].
    intros [= <- <-] Hok. rewrite (timed_call_ok _ _ acc) by done.
    cbn [st_clock st_calls st_accesses st_trace]. by rewrite <- !app_assoc.
  - unfold run_bind at 1. unfold mix_get at 1. rewrite Hw. unfold run_lift at 1.
    unfold run_bind at 1. unfold mix_get at 1. unfold run_lift at 1.
    destruct (mix !! "what2w"%string) as [h|]; [|done].
    destruct (choice ids s1) as [[o s2]|e] eqn:Hch; [|done].
    destruct (float_lt r (float_add w h)).
    + unfold run_bind at 1. unfold rng_choice at 1. simpl st_rng. rewrite Hch.
      intros [= <- <-] Hok. rewrite (timed_call_ok _ _ acc) by done.
      cbn [st_clock st_calls st_accesses st_trace]. by rewrite <- !app_assoc.
    + unfold run_bind at 1. unfold rng_choice at 1. simpl st_rng. rewrite Hch.
      intros [= <- <-] Hok. rewrite (timed_call_ok _ _ acc) by done.
      cbn [st_clock st_calls st_accesses st_trace]. by rewrite <- !app_assoc.
Qed.

(** An iteration whose draws fail raises before any call is made. *)
Lemma run_query_not_selected mem mix ids coords acc st e :
  next_query mix ids coords (st_rng st) = Raise e →
  (run_query mem mix ids coords acc st).1 = Raise e
  ∧ st_calls (run_query mem mix ids coords acc st).2 = st_calls st.
Proof.
  unfold next_query, run_query, run_bind, rng_random, mix_get, run_lift,
    rng_choice.
  destruct (random (st_rng st)) as [r s1]. simpl.
  destruct (mix !! "w2what"%string) as [w|]; [|by intros [= <-]; split].
  destruct (float_lt r w); simpl.
  - destruct (choice coords s1) as [[c s2]|e']; [done|].
    by intros [= <-]; split.
  - destruct (mix !! "what2w"%string) as [h|]; [|by intros [= <-]; split].
    destruct (float_lt r (float_add w h)); simpl;
      (destruct (choice ids s1) as [[o s2]|e']; [done|]);
      by intros [= <-]; split.
Qed.

(** An iteration that returns a new total has drawn a float, chosen an
    argument, read the clock, made one call and read the clock again, in
    this order; the total grew by the difference of the two readings. *)
Lemma run_query_inv mem mix ids coords acc st acc' st' :
  run_query mem mix ids coords acc st = (Ok acc', st') →
  ∃ q,
    acc' = acc + ((perf_counter_ns (tick (st_clock st))).1
                  - (perf_counter_ns (st_clock st)).1)
    ∧ st_clock st' = tick (tick (st_clock st))
    ∧ st_calls st' = st_calls st ++ [q]
    ∧ st_trace st'
      = st_trace st
        ++ [E_random; E_choice; E_clock (perf_counter_ns (st_clock st)).1;
            E_call q; E_clock (perf_counter_ns (tick (st_clock st))).1].
Proof.
  unfold run_query. unfold run_bind at 1. unfold rng_random.
  destruct (random (st_rng st)) as [r s1].
  unfold run_bind at 1. unfold mix_get at 1. unfold run_lift at 1.
  destruct (mix !! "w2what"%string) as [w|] eqn:Hw; [|done].
  destruct (float_lt r w).
  - unfold run_bind at 1. unfold rng_choice at 1. simpl st_rng.
    destruct (choice coords s1) as [[c s2]|e]; [|done].
    intros [-> ->]%timed_call_inv. exists (Q_coord_to_oid c).
    cbn [st_clock st_calls st_trace]. by rewrite <- !app_assoc.
  - unfold run_bind at 1. unfold mix_get at 1. rewrite Hw. unfold run_lift at 1.
    unfold run_bind at 1. unfold mix_get at 1. unfold run_lift at 1.
    destruct (mix !! "what2w"%string) as [h|]; [|done].
    destruct (float_lt r (float_add w h));
      unfold run_bind at 1; unfold rng_choice at 1; simpl st_rng;
      (destruct (choice ids s1) as [[o s2]|e]; [|done]);
      intros [-> ->]%timed_call_inv;
      [exists (Q_oid_to_coord o)|exists (Q_full_lookup o)];
      cbn [st_clock st_calls st_trace]; by rewrite <- !app_assoc.
Qed.

(** A loop that completes: its iterations one after the other. *)
Lemma run_loop_inv k mem mix ids coords acc st acc' st' :
  run_loop k mem mix ids coords acc st = (Ok acc', st') →
  ∃ qs,
    length qs = k
    ∧ acc' = acc + elapsed k (st_clock st)
    ∧ st_clock st' = Nat.iter (2 * k) tick (st_clock st)
    ∧ st_calls st' = st_calls st ++ qs
    ∧ st_trace st' = st_trace st ++ timed_trace qs (st_clock st).
Proof.
  revert acc st. induction k as [|k IH]; intros acc st.
  - cbn. unfold run_ret. intros [= <- <-]. exists [].
    cbn. rewrite !app_nil_r. repeat split; lia.
  - rewrite run_loop_step.
    destruct (run_query mem mix ids coords acc st) as [[acc1|e] st1] eqn:Hq;
      [|done].
    apply run_query_inv in Hq as (q & -> & Hclock & Hcalls & Htrace).
    intros (qs & Hlen & -> & Hclock' & Hcalls' & Htrace')%IH.
    exists (q :: qs). rewrite Hclock in *.
    split; [simpl; by rewrite Hlen|].
    split; [cbn [elapsed]; lia|].
    split.
    { rewrite Hclock'. replace (2 * S k)%nat with (2 * k + 2)%nat by lia.
      by rewrite Nat.iter_add. }
    split; [by rewrite Hcalls', Hcalls, <- app_assoc|].
    rewrite Htrace', Htrace, <- app_assoc. done.
Qed.

(** A precomputation that completes has made one call for each id, in
    order, and nothing else. *)
Lemma precompute_coords_inv mem ids st cs st' :
  precompute_coords mem ids st = (Ok cs, st') →
  st_rng st' = st_rng st
  ∧ st_clock st' = st_clock st
  ∧ st_calls st' = st_calls st ++ (Q_oid_to_coord <$> ids)
  ∧ st_trace st' = st_trace st ++ (E_call ∘ Q_oid_to_coord <$> ids).
Proof.
  revert st cs. induction ids as [|i ids IH]; intros st cs;
    cbn [precompute_coords].
  - unfold run_ret. intros [= _ <-]. cbn. by rewrite !app_nil_r.
  - unfold run_bind at 1. unfold invoke at 1.
    destruct (value (oid_to_coord mem i)) as [c|e]; [|done].
    unfold run_bind at 1.
    destruct (precompute_coords mem ids _) as [[cs1|e] st1] eqn:Hrec; [|done].
    unfold run_ret. intros [= _ <-].
    apply IH in Hrec as (-> & -> & -> & ->).
    cbn [st_rng st_clock st_calls st_trace]. rewrite !fmap_cons.
    by rewrite <- !app_assoc.
Qed.

(** With both boundaries in the mix and non-empty lists to choose from,
    the draws of an iteration select a query on one of the list elements. *)
Lemma next_query_ok mix ids coords s w2what what2w :
  randbelow_in_range →
  mix !! "w2what"%string = Some w2what →
  mix !! "what2w"%string = Some what2w →
  ids ≠ [] → coords ≠ [] →
  ∃ q s', next_query mix ids coords s = Ok (q, s') ∧ query_in ids coords q.
Proof.
  intros Hrange Hw Hh Hids Hcoords. unfold next_query.
  destruct (random s) as [r s1]. rewrite Hw, Hh.
  destruct (choice_ok coords s1 Hrange Hcoords) as (c & sc & -> & Hc).
  destruct (choice_ok ids s1 Hrange Hids) as (o & so & -> & Ho).
  destruct (float_lt r w2what); [by exists (Q_coord_to_oid c), sc|].
  destruct (float_lt r (float_add w2what what2w));
    [by exists (Q_oid_to_coord o), so|by exists (Q_full_lookup o), so].
Qed.

(** With an empty list to choose from, they raise [IndexError]. *)
Lemma next_query_empty mix s w2what what2w :
  mix !! "w2what"%string = Some w2what →
  mix !! "what2w"%string = Some what2w →
  next_query mix [] [] s = Raise IndexError.
Proof.
  intros Hw Hh. unfold next_query.
  destruct (random s) as [r s1]. rewrite Hw, Hh. simpl.
  by destruct (float_lt r w2what).
Qed.

(** Without the first boundary, they raise [KeyError]. *)
Lemma next_query_no_boundary mix ids coords s :
  mix !! "w2what"%string = None →
  next_query mix ids coords s = Raise KeyError.
Proof.
  intros Hw. unfold next_query. destruct (random s) as [r s1]. by rewrite Hw.
Qed.

(** On a clock that never goes back, the measured time is not negative. *)
Lemma elapsed_nonneg k (c : Clock) : clock_monotone → 0 ≤ elapsed k c.
Proof.
  intros Hclock. revert c. induction k as [|k IH]; intros c; cbn [elapsed].
  - lia.
  - pose proof (Hclock c) as Hread. pose proof (IH (tick (tick c))) as Hrest.
    unfold tick in *. lia.
Qed.

Lemma readings_in_range_tail k (c : Clock) :
  readings_in_range (2 * S k) c → readings_in_range (2 * k) (tick (tick c)).
Proof.
  intros Hrange i Hi. specialize (Hrange (S (S i)) ltac:(lia)).
  by rewrite !Nat.iter_succ_r in Hrange.
Qed.

(** With readings of 64 bits, each query measures less than [2^64]. *)
Lemma elapsed_in_range k (c : Clock) :
  readings_in_range (2 * k) c →
  - (Z.of_nat k * 2 ^ 64) ≤ elapsed k c ≤ Z.of_nat k * 2 ^ 64.
Proof.
  revert c. induction k as [|k IH]; intros c Hrange; cbn [elapsed].
  - lia.
  - pose proof (Hrange 0%nat ltac:(lia)) as Hfst.
    pose proof (Hrange 1%nat ltac:(lia)) as Hsnd.
    pose proof (IH _ (readings_in_range_tail k c Hrange)) as Hrest.
    change (Nat.iter 0 tick c) with c in Hfst.
    change (Nat.iter 1 tick c) with (tick c) in Hsnd.
    rewrite Nat2Z.inj_succ, Z.mul_succ_l.
    change (2 ^ 64) with (2 * 2 ^ 63) in *. lia.
Qed.

End run_query_facts.

Section run_on_generated.
Context `{RandomSource} `{MonotonicClock}.
Implicit Types (ds : list record) (a : arch) (mix : gmap string spec_float)
  (st : RunState).

(** On a store built from a well-formed dataset, a query on one of its ids
    or coordinates returns, after reading the tables of its layout. *)
Lemma call_on_dataset n ds a q :
  well_formed n ds → query_in (oids ds) (coords_of ds) q →
  call_ok (build a ds) q = true ∧ call_log (build a ds) q = tables_of a q.
Proof.
  intros Hwf Hq. destruct q as [c|o|o]; simpl in Hq.
  - apply elem_of_coords_of in Hq as (oid & f & Hrow).
    destruct a; unfold call_ok, call_log.
    + change (coord_to_oid (build ArchUnified ds) c)
        with (coord_to_oid (Unified_init ds) c).
      by rewrite (unified_coord_to_oid_row n ds oid c f).
    + change (coord_to_oid (build ArchSplit ds) c)
        with (coord_to_oid (Split_init ds) c).
      by rewrite (split_coord_to_oid_row n ds oid c f).
  - apply elem_of_oids in Hq as (c & f & Hrow).
    destruct a; unfold call_ok, call_log.
    + change (oid_to_coord (build ArchUnified ds) o)
        with (oid_to_coord (Unified_init ds) o).
      by rewrite (unified_oid_to_coord_row n ds o c f).
    + change (oid_to_coord (build ArchSplit ds) o)
        with (oid_to_coord (Split_init ds) o).
      by rewrite (split_oid_to_coord_row n ds o c f).
  - apply elem_of_oids in Hq as (c & f & Hrow).
    destruct a; unfold call_ok, call_log.
    + change (full_lookup (build ArchUnified ds) o)
        with (full_lookup (Unified_init ds) o).
      by rewrite (unified_full_lookup_row n ds o c f).
    + change (full_lookup (build ArchSplit ds) o)
        with (full_lookup (Split_init ds) o).
      by rewrite (split_full_lookup_row n ds o c f).
Qed.

(** The precomputation visits the rows in order: it returns their
    coordinates and logs one [oid_to_coord] call per row. *)
Lemma precompute_coords_rows n ds a rows st :
  well_formed n ds → (∀ r, r ∈ rows → r ∈ ds) →
  precompute_coords (build a ds) (oids rows) st
  = (Ok (coords_of rows),
     mkRunState (st_rng st) (st_clock st)
       (st_calls st ++ (Q_oid_to_coord <$> oids rows))
       (st_accesses st ++ concat (tables_of a ∘ Q_oid_to_coord <$> oids rows))
       (st_trace st ++ (E_call ∘ Q_oid_to_coord <$> oids rows))).
Proof.
  intros Hwf. revert st.
  induction rows as [|[[oid c] f] rows IH]; intros st Hsub.
  - cbn. rewrite !app_nil_r. by destruct st.
  - assert ((oid, c, f) ∈ ds) as Hrow by (apply Hsub; left).
    destruct (call_on_dataset n ds a (Q_oid_to_coord oid) Hwf) as [Hok Hlog].
    { simpl. apply elem_of_oids. eauto. }
    unfold call_ok in Hok. unfold call_log in Hlog.
    assert (value (oid_to_coord (build a ds) oid) = Ok c) as Hval
      by by eapply build_oid_to_coord_row.
    change (oids ((oid, c, f) :: rows)) with (oid :: oids rows).
    change (coords_of ((oid, c, f) :: rows)) with (c :: coords_of rows).
    cbn [precompute_coords]. unfold run_bind at 1. unfold invoke at 1.
    rewrite Hval, Hlog. unfold run_bind at 1.
    rewrite IH by (intros r Hr; apply Hsub; by right).
    unfold run_ret. cbn [st_rng st_clock st_calls st_accesses st_trace].
    rewrite !fmap_cons. cbn [concat]. by rewrite <- !app_assoc.
Qed.

Lemma seqZ_of_to_nat m n : seqZ m (Z.of_nat (Z.to_nat n)) = seqZ m n.
Proof. unfold seqZ. by rewrite Nat2Z.id. Qed.

Lemma ids_of_generated n ds a :
  well_formed n ds → seqZ 0 (mem_size (build a ds)) = oids ds.
Proof.
  intros Hwf. rewrite (mem_size_build n), (well_formed_length n) by done.
  by rewrite seqZ_of_to_nat, (wf_oids n ds Hwf).
Qed.

Lemma precompute_coords_generated n ds a st :
  well_formed n ds →
  precompute_coords (build a ds) (seqZ 0 (mem_size (build a ds))) st
  = (Ok (coords_of ds),
     mkRunState (st_rng st) (st_clock st)
       (st_calls st ++ (Q_oid_to_coord <$> oids ds))
       (st_accesses st ++ concat (tables_of a ∘ Q_oid_to_coord <$> oids ds))
       (st_trace st ++ (E_call ∘ Q_oid_to_coord <$> oids ds))).
Proof.
  intros Hwf. rewrite (ids_of_generated n) by done.
  by apply (precompute_coords_rows n).
Qed.

Lemma nonempty_generated n ds :
  well_formed n ds → 0 < n → oids ds ≠ [] ∧ coords_of ds ≠ [].
Proof.
  intros Hwf Hn. pose proof (well_formed_length n ds Hwf) as Hlen.
  destruct ds as [|r ds]; [simpl in Hlen; lia|done].
Qed.

(** The loop on a non-empty generated store: every iteration returns, the
    calls are the queries the generator selects, and every call reads the
    tables of its layout. *)
Lemma run_loop_generated n ds a mix w2what what2w k acc st :
  well_formed n ds → 0 < n → randbelow_in_range →
  mix !! "w2what"%string = Some w2what →
  mix !! "what2w"%string = Some what2w →
  ∃ acc' st' qs,
    run_loop k (build a ds) mix (oids ds) (coords_of ds) acc st = (Ok acc', st')
    ∧ query_stream k mix (oids ds) (coords_of ds) (st_rng st)
      = Ok (qs, st_rng st')
    ∧ st_calls st' = st_calls st ++ qs
    ∧ st_accesses st' = st_accesses st ++ concat (tables_of a <$> qs)
    ∧ length qs = k
    ∧ Forall (query_in (oids ds) (coords_of ds)) qs.
Proof.
  intros Hwf Hn Hrange Hw Hh.
  destruct (nonempty_generated n ds Hwf Hn) as [Hids Hcoords].
  revert acc st. induction k as [|k IH]; intros acc st.
  - exists acc, st, []. cbn. rewrite !app_nil_r.
    repeat split; done.
  - destruct (next_query_ok mix (oids ds) (coords_of ds) (st_rng st)
                w2what what2w Hrange Hw Hh Hids Hcoords)
      as (q & s' & Hsel & Hq).
    destruct (call_on_dataset n ds a q Hwf Hq) as [Hok Hlog].
    rewrite run_loop_step.
    rewrite (run_query_selected _ _ _ _ _ _ q s' Hsel Hok).
    edestruct IH as (acc' & st' & qs & Hloop & Hstream & Hcalls & Hacc
                     & Hlen & Hall).
    exists acc', st', (q :: qs). split; [exact Hloop|].
    cbn [st_rng st_calls st_accesses] in Hstream, Hcalls, Hacc.
    split; [cbn [query_stream]; by rewrite Hsel, Hstream|].
    split; [by rewrite Hcalls, <- app_assoc|].
    split; [rewrite Hacc, Hlog, <- app_assoc; by rewrite fmap_cons|].
    split; [simpl; by rewrite Hlen|].
    by constructor.
Qed.

End run_on_generated.

(** ** Signs of the floats a run computes *)

Section float_signs.
Implicit Types (x y : spec_float).

Lemma binary_round_aux_sign prec emax sx mx ex lx :
  match binary_round_aux prec emax sx mx ex lx with
  | S754_zero s | S754_infinity s | S754_finite s _ _ => s = sx
  | S754_nan => True
  end.
Proof.
  unfold binary_round_aux.
  destruct (shr_fexp prec emax mx ex lx) as [mrs' e'].
  destruct (shr_fexp prec emax _ e' loc_Exact) as [mrs'' e''].
  destruct (shr_m mrs''); [done| |done].
  by destruct (e'' <=? emax - prec).
Qed.

Lemma float_of_int_sign z : 0 ≤ z → sign_clear (float_of_int z).
Proof.
  intros Hz. unfold float_of_int, binary_normalize.
  destruct z as [|p|p]; [done| |lia].
  unfold binary_round. destruct (shl_align _ _ _) as [mz ez].
  pose proof (binary_round_aux_sign prec64 emax64 false (Z.pos mz) ez loc_Exact)
    as Hs.
  unfold sign_clear. by destruct (binary_round_aux _ _ _ _ _ _).
Qed.

Lemma SFdiv_sign_clear x y :
  sign_clear x → sign_clear y → sign_clear (SFdiv prec64 emax64 x y).
Proof.
  destruct x as [sx|sx| |sx mx ex], y as [sy|sy| |sy my ey];
    simpl; intros Hx Hy; subst; try done.
  destruct (SFdiv_core_binary _ _ _ _ _ _) as [[mz ez] lz].
  pose proof (binary_round_aux_sign prec64 emax64 false mz ez lz) as Hs.
  simpl. by destruct (binary_round_aux _ _ _ _ _ _).
Qed.

Lemma sign_clear_not_below_zero x : sign_clear x → not_below_zero x.
Proof. destruct x as [s|s| |s m e]; simpl; intros Hs; by subst. Qed.

Lemma SFdiv_zero_or_nan x y :
  zero_or_nan x → zero_or_nan (SFdiv prec64 emax64 x y).
Proof. by destruct x as [sx|sx| |sx mx ex], y as [sy|sy| |sy my ey]. Qed.

Lemma zero_or_nan_not_below_zero x : zero_or_nan x → not_below_zero x.
Proof. by destruct x. Qed.

(** The quotient of an int that is not negative by a positive int. *)
Lemma int_truediv_sign a b x :
  0 ≤ a → 0 < b → int_truediv a b = Ok x → sign_clear x.
Proof.
  intros Ha Hb. unfold int_truediv.
  rewrite (proj2 (Z.eqb_neq b 0)) by lia.
  rewrite (proj2 (Z.ltb_ge a 0)), (proj2 (Z.ltb_ge b 0)) by lia.
  cbv zeta. cbn [xorb].
  destruct (a =? 0); [by intros [= <-]|].
  destruct (SFdiv_core_binary _ _ _ _ _ _) as [[q e] l].
  pose proof (binary_round_aux_sign prec64 emax64 false q e l) as Hs.
  destruct (binary_round_aux _ _ _ _ _ _); intros [= <-]; done.
Qed.

Lemma int_truediv_zero_dividend b x : int_truediv 0 b = Ok x → zero_or_nan x.
Proof.
  unfold int_truediv. destruct (b =? 0); [done|]. cbn. by intros [= <-].
Qed.

(** The divisor 1000 is a float: the last division of [run] is a division
    of floats. *)
Lemma float_truediv_int_1000 x :
  float_truediv_int x 1000 = Ok (SFdiv prec64 emax64 x (float_of_int 1000)).
Proof. reflexivity. Qed.

(** The mean latency computed from a total that is not negative. *)
Lemma mean_latency_not_below_zero acc tq mean_ns latency :
  0 ≤ acc → (tq < 0 → acc = 0) →
  int_truediv acc tq = Ok mean_ns →
  float_truediv_int mean_ns 1000 = Ok latency →
  not_below_zero latency.
Proof.
  intros Hacc Hneg Hmean. rewrite float_truediv_int_1000. intros [= <-].
  destruct (decide (tq < 0)) as [Htq|Htq].
  - rewrite (Hneg Htq) in Hmean.
    by eapply zero_or_nan_not_below_zero, SFdiv_zero_or_nan,
      int_truediv_zero_dividend.
  - destruct (decide (tq = 0)) as [->|Hne]; [done|].
    apply sign_clear_not_below_zero, SFdiv_sign_clear; [|done].
    eapply (int_truediv_sign acc tq); [done|lia|done].
Qed.

End float_signs.

(** ** The range of the floats a run computes *)

Section float_range.

Lemma digits2_pos_bounds p :
  2 ^ (Z.pos (digits2_pos p) - 1) ≤ Z.pos p < 2 ^ Z.pos (digits2_pos p).
Proof.
  induction p as [p IH|p IH|]; cbn [digits2_pos]; [| |done];
    rewrite Pos2Z.inj_succ;
    replace (Z.succ (Z.pos (digits2_pos p)) - 1)
      with (Z.succ (Z.pos (digits2_pos p) - 1)) by lia;
    rewrite !Z.pow_succ_r by lia; lia.
Qed.

Lemma Zdigits2_bounds z : 0 < z → 2 ^ (Zdigits2 z - 1) ≤ z < 2 ^ Zdigits2 z.
Proof. destruct z as [|p|p]; [lia| |lia]. intros _. apply digits2_pos_bounds. Qed.

Lemma Zdigits2_nonneg z : 0 ≤ Zdigits2 z.
Proof. destruct z; simpl; lia. Qed.

Lemma Zdigits2_le z k : 0 ≤ z < 2 ^ k → 0 ≤ k → Zdigits2 z ≤ k.
Proof.
  intros [Hz Hlt] Hk. destruct (decide (z = 0)) as [->|Hne]; [done|].
  destruct (Zdigits2_bounds z) as [Hlo _]; [lia|].
  assert (2 ^ (Zdigits2 z - 1) < 2 ^ k) as Hpow by lia.
  apply Z.pow_lt_mono_r_iff in Hpow; lia.
Qed.

(** Shifting a mantissa to the right does not make it larger. *)
Lemma shr_1_le mrs : 0 ≤ shr_m mrs → 0 ≤ shr_m (shr_1 mrs) ≤ shr_m mrs.
Proof.
  destruct mrs as [m r s]. destruct m as [|[p|p|]|[p|p|]]; simpl; lia.
Qed.

Lemma iter_pos_shr_1_le p mrs :
  0 ≤ shr_m mrs → 0 ≤ shr_m (SpecFloat.iter_pos shr_1 p mrs) ≤ shr_m mrs.
Proof.
  revert mrs. induction p as [p IH|p IH|]; intros mrs Hm;
    cbn [SpecFloat.iter_pos].
  - pose proof (shr_1_le mrs Hm) as H1.
    pose proof (IH (shr_1 mrs) ltac:(lia)) as H2.
    pose proof (IH (SpecFloat.iter_pos shr_1 p (shr_1 mrs)) ltac:(lia)) as H3.
    lia.
  - pose proof (IH mrs Hm) as H1.
    pose proof (IH (SpecFloat.iter_pos shr_1 p mrs) ltac:(lia)) as H2. lia.
  - by apply shr_1_le.
Qed.

Lemma shr_record_of_loc_m m l : shr_m (shr_record_of_loc m l) = m.
Proof. by destruct l as [|[]]. Qed.

Lemma shr_fexp_bounds m e l :
  0 ≤ m →
  0 ≤ shr_m (shr_fexp prec64 emax64 m e l).1 ≤ m
  ∧ (shr_fexp prec64 emax64 m e l).2
    = Z.max e (fexp prec64 emax64 (Zdigits2 m + e)).
Proof.
  intros Hm. unfold shr_fexp, shr.
  destruct (fexp prec64 emax64 (Zdigits2 m + e) - e) as [|p|p] eqn:Hn; simpl.
  - rewrite shr_record_of_loc_m. lia.
  - pose proof (iter_pos_shr_1_le p (shr_record_of_loc m l)) as Hle.
    rewrite shr_record_of_loc_m in Hle. lia.
  - rewrite shr_record_of_loc_m. lia.
Qed.

Lemma round_nearest_even_bounds m l : m ≤ round_nearest_even m l ≤ m + 1.
Proof. destruct l as [|[]]; simpl; try lia. destruct (Z.even m); lia. Qed.

Lemma fexp_64 x : fexp prec64 emax64 x = Z.max (x - 53) (-1074).
Proof. reflexivity. Qed.

(** Rounding a mantissa of at most 65 bits, scaled by a power of two that
    is at most [2^0], stays within the range of a float. *)
Lemma binary_round_aux_finite sx m e l :
  0 ≤ m → Zdigits2 m ≤ 65 → e ≤ 0 →
  match binary_round_aux prec64 emax64 sx m e l with
  | S754_infinity _ => False
  | _ => True
  end.
Proof.
  intros Hm Hd He. unfold binary_round_aux.
  destruct (shr_fexp_bounds m e l Hm) as [Hm1 He1].
  destruct (shr_fexp prec64 emax64 m e l) as [mrs1 e1]. simpl in Hm1, He1.
  set (m1 := round_nearest_even (shr_m mrs1) (loc_of_shr_record mrs1)).
  pose proof (round_nearest_even_bounds (shr_m mrs1) (loc_of_shr_record mrs1))
    as Hr. fold m1 in Hr.
  destruct (shr_fexp_bounds m1 e1 loc_Exact) as [Hm2 He2]; [lia|].
  destruct (shr_fexp prec64 emax64 m1 e1 loc_Exact) as [mrs2 e2].
  simpl in Hm2, He2.
  destruct (shr_m mrs2); [done| |done].
  assert (Zdigits2 m1 ≤ 66) as Hd1.
  { apply Zdigits2_le; [|lia]. split; [lia|].
    assert (m < 2 ^ 65) as Hlt.
    { destruct (decide (m = 0)) as [->|Hne]; [done|].
      destruct (Zdigits2_bounds m) as [_ Hup]; [lia|].
      eapply Z.lt_le_trans; [exact Hup|]. apply Z.pow_le_mono_r; lia. }
    change (2 ^ 66) with (2 * 2 ^ 65). lia. }
  assert (e2 ≤ emax64 - prec64) as Hle.
  { rewrite fexp_64 in He1, He2. unfold emax64, prec64. lia. }
  by rewrite (proj2 (Z.leb_le _ _) Hle).
Qed.

(** The quotient and the exponent the division of two positive ints hands
    over to the rounding, when the exact quotient is at most [2^64]. *)
Lemma div_core_bounds a b :
  0 < a → 0 < b → a ≤ 2 ^ 64 * b →
  let '(q, e, _) := SFdiv_core_binary prec64 emax64 a 0 b 0 in
  0 ≤ q ∧ Zdigits2 q ≤ 65 ∧ e ≤ 0.
Proof.
  intros Ha Hb Hab. unfold SFdiv_core_binary. cbv zeta.
  rewrite !Z.add_0_r, fexp_64. change (0 - 0) with 0.
  set (d1 := Zdigits2 a). set (d2 := Zdigits2 b).
  destruct (Zdigits2_bounds a Ha) as [_ Ha2]. fold d1 in Ha2.
  destruct (Zdigits2_bounds b Hb) as [Hb1 _]. fold d2 in Hb1.
  pose proof (Zdigits2_nonneg a) as Hd1. fold d1 in Hd1.
  assert (1 ≤ d2) as Hd2 by (subst d2; destruct b; simpl; lia).
  set (e' := Z.min (Z.max (d1 - d2 - 53) (-1074)) 0).
  destruct (0 - e') as [|p|p] eqn:Hs.
  - destruct (Z.div_eucl a b) as [q r] eqn:Hdiv.
    assert (q = a / b) as -> by (unfold Z.div; by rewrite Hdiv).
    split; [apply Z.div_pos; lia|]. split; [|lia].
    apply Zdigits2_le; [|lia]. split; [apply Z.div_pos; lia|].
    apply Z.div_lt_upper_bound; [lia|].
    change (2 ^ 65) with (2 * 2 ^ 64). lia.
  - rewrite Z.shiftl_mul_pow2 by lia.
    destruct (Z.div_eucl (a * 2 ^ Z.pos p) b) as [q r] eqn:Hdiv.
    assert (q = a * 2 ^ Z.pos p / b) as -> by (unfold Z.div; by rewrite Hdiv).
    assert (0 < 2 ^ Z.pos p) as Hpos by (apply Z.pow_pos_nonneg; lia).
    split; [apply Z.div_pos; lia|]. split; [|lia].
    apply Zdigits2_le; [|lia]. split; [apply Z.div_pos; lia|].
    apply Z.div_lt_upper_bound; [lia|].
    assert (d1 + Z.pos p ≤ (d2 - 1) + 54) as Hsum by lia.
    assert (a * 2 ^ Z.pos p < 2 ^ (d1 + Z.pos p)) as H1.
    { rewrite Z.pow_add_r by lia. apply Z.mul_lt_mono_pos_r; lia. }
    assert (2 ^ (d1 + Z.pos p) ≤ 2 ^ (d2 - 1) * 2 ^ 54) as H2.
    { rewrite <- Z.pow_add_r by lia. apply Z.pow_le_mono_r; lia. }
    assert (2 ^ (d2 - 1) * 2 ^ 54 ≤ b * 2 ^ 54) as H3.
    { apply Z.mul_le_mono_nonneg_r; [done|lia]. }
    change (2 ^ 65) with (2 ^ 54 * 2048). lia.
  - lia.
Qed.

(** A quotient of two ints that is at most [2^64] in size is within the
    range of a float: the division does not raise. *)
Lemma int_truediv_in_range a b :
  b ≠ 0 → Z.abs a ≤ 2 ^ 64 * Z.abs b → is_ok (int_truediv a b) = true.
Proof.
  intros Hb Hab. unfold int_truediv.
  rewrite (proj2 (Z.eqb_neq b 0) Hb). cbv zeta.
  destruct (a =? 0) eqn:Ha; [done|]. apply Z.eqb_neq in Ha.
  pose proof (div_core_bounds (Z.abs a) (Z.abs b)) as Hcore.
  destruct (SFdiv_core_binary prec64 emax64 (Z.abs a) 0 (Z.abs b) 0)
    as [[q e] l].
  destruct Hcore as (Hq & Hd & He); [lia..|].
  pose proof (binary_round_aux_finite (xorb (a <? 0) (b <? 0)) q e l Hq Hd He)
    as Hfin.
  by destruct (binary_round_aux _ _ _ _ _ _).
Qed.

End float_range.

(** ** Whole runs *)

Section whole_runs.
Context `{RandomSource} `{MonotonicClock}.
Implicit Types (ds : list record) (a : arch) (mem : Mem)
  (mix : gmap string spec_float) (st : RunState).

(** [run], once the precomputation and the loop have completed. *)
Lemma run_unfold mem tq mix st cs st1 acc st' :
  precompute_coords mem (seqZ 0 (mem_size mem)) st = (Ok cs, st1) →
  run_loop (Z.to_nat tq) mem mix (seqZ 0 (mem_size mem)) cs 0 st1
  = (Ok acc, st') →
  run mem tq mix st
  = (match int_truediv acc tq with
     | Ok mean_ns => float_truediv_int mean_ns 1000
     | Raise e => Raise e
     end, st').
Proof.
  intros Hpre Hloop. unfold run. cbv zeta.
  unfold run_bind at 1. rewrite Hpre.
  unfold run_bind at 1. rewrite Hloop.
  unfold run_bind, run_lift. by destruct (int_truediv acc tq).
Qed.

(** The shape of what [run] returns. *)
Lemma run_result mem tq mix st latency st' :
  run mem tq mix st = (Ok latency, st') →
  ∃ cs st1 acc mean_ns,
    precompute_coords mem (seqZ 0 (mem_size mem)) st = (Ok cs, st1)
    ∧ run_loop (Z.to_nat tq) mem mix (seqZ 0 (mem_size mem)) cs 0 st1
      = (Ok acc, st')
    ∧ int_truediv acc tq = Ok mean_ns
    ∧ float_truediv_int mean_ns 1000 = Ok latency.
Proof.
  unfold run. cbv zeta. unfold run_bind at 1.
  destruct (precompute_coords mem (seqZ 0 (mem_size mem)) st)
    as [[cs|e] st1] eqn:Hpre; [|done].
  unfold run_bind at 1.
  destruct (run_loop (Z.to_nat tq) mem mix (seqZ 0 (mem_size mem)) cs 0 st1)
    as [[acc|e] st2] eqn:Hloop; [|done].
  unfold run_bind, run_lift.
  destruct (int_truediv acc tq) as [mean_ns|e] eqn:Hmean; [|done].
  intros Heq. pose proof (f_equal fst Heq) as Hlat.
  pose proof (f_equal snd Heq) as Hst. cbn [fst snd] in Hlat, Hst. subst st'.
  by exists cs, st1, acc, mean_ns.
Qed.

(** With readings of 64 bits, the two divisions at the end of a run with
    at least one query return. *)
Lemma mean_latency_in_range tq (c : Clock) :
  0 < tq → readings_in_range (2 * Z.to_nat tq) c →
  ∃ latency,
    match int_truediv (elapsed (Z.to_nat tq) c) tq with
    | Ok mean_ns => float_truediv_int mean_ns 1000
    | Raise e => Raise e
    end = Ok latency.
Proof.
  intros Htq Hrange%elapsed_in_range.
  rewrite Z2Nat.id in Hrange by lia.
  pose proof (int_truediv_in_range (elapsed (Z.to_nat tq) c) tq) as Hok.
  destruct (int_truediv (elapsed (Z.to_nat tq) c) tq) as [mean_ns|e].
  - rewrite float_truediv_int_1000. by eexists.
  - discriminate Hok; lia.
Qed.

(** A run on a non-empty well-formed dataset, laid out in full. *)
Lemma run_generated n ds a mix w2what what2w tq st :
  well_formed n ds → 0 < n → randbelow_in_range →
  mix !! "w2what"%string = Some w2what →
  mix !! "what2w"%string = Some what2w →
  ∃ st' qs,
    run (build a ds) tq mix st
    = (match int_truediv (elapsed (Z.to_nat tq) (st_clock st)) tq with
       | Ok mean_ns => float_truediv_int mean_ns 1000
       | Raise e => Raise e
       end, st')
    ∧ query_stream (Z.to_nat tq) mix (oids ds) (coords_of ds) (st_rng st)
      = Ok (qs, st_rng st')
    ∧ st_calls st' = st_calls st ++ (Q_oid_to_coord <$> oids ds) ++ qs
    ∧ st_accesses st'
      = st_accesses st
        ++ concat (tables_of a ∘ Q_oid_to_coord <$> oids ds)
        ++ concat (tables_of a <$> qs)
    ∧ length qs = Z.to_nat tq
    ∧ Forall (query_in (oids ds) (coords_of ds)) qs.
Proof.
  intros Hwf Hn Hrange Hw Hh.
  pose proof (precompute_coords_generated n ds a st Hwf) as Hpre.
  edestruct (run_loop_generated n ds a mix w2what what2w (Z.to_nat tq) 0)
    as (acc & st' & qs & Hloop & Hstream & Hcalls & Hacc & Hlen & Hall);
    [done..|].
  pose proof Hloop as (_ & _ & Helapsed & _)%run_loop_inv.
  rewrite <- (ids_of_generated n ds a Hwf) in Hloop at 1.
  pose proof (run_unfold _ tq mix st _ _ _ _ Hpre Hloop) as Hrun.
  cbn [st_rng st_clock st_calls st_accesses] in Hstream, Hcalls, Hacc, Helapsed.
  rewrite Z.add_0_l in Helapsed. subst acc.
  exists st', qs. split; [exact Hrun|].
  rewrite Hcalls, Hacc, <- !app_assoc. by repeat split.
Qed.

Lemma tables_of_length a qs :
  length (concat (tables_of a <$> qs))
  = (length qs
     + match a with ArchUnified => 0 | ArchSplit => 3 * integrated_count qs end)%nat.
Proof.
  unfold integrated_count.
  induction qs as [|q qs IH]; [by destruct a|].
  rewrite fmap_cons. cbn [concat]. rewrite length_app, IH.
  destruct a, q; simpl; lia.
Qed.

Lemma integrated_count_precompute (ids : list Z) :
  integrated_count (Q_oid_to_coord <$> ids) = 0%nat.
Proof. unfold integrated_count. induction ids as [|i ids IH]; [done|]. by csimpl. Qed.

(** X12.  A run does not fail on well-formed input: on a store of either
    layout built from a generated dataset that is not empty, with both
    boundaries in the mix, a positive number of queries and a clock whose
    readings are numbers of 64 bits, [run] returns a latency.  It calls
    [oid_to_coord] once for each id in order, then makes exactly
    [total_queries] calls, each on an id or a coordinate of the dataset. *)
Theorem run_returns fuel n grid rng ds rng' a tq mix w2what what2w st :
  gen_ds fuel n grid rng = Some (Ok (ds, rng')) →
  0 < n → 0 < tq → randbelow_in_range →
  readings_in_range (2 * Z.to_nat tq) (st_clock st) →
  mix !! "w2what"%string = Some w2what →
  mix !! "what2w"%string = Some what2w →
  ∃ latency st' qs,
    run (build a ds) tq mix st = (Ok latency, st')
    ∧ st_calls st' = st_calls st ++ (Q_oid_to_coord <$> seqZ 0 n) ++ qs
    ∧ length qs = Z.to_nat tq
    ∧ Forall (query_in (seqZ 0 n) (coords_of ds)) qs.
Proof.
  intros Hwf%gen_ds_well_formed Hn Htq Hrange Hclock Hw Hh.
  destruct (run_generated n ds a mix w2what what2w tq st)
    as (st' & qs & Hrun & _ & Hcalls & _ & Hlen & Hall); [done..|].
  destruct (mean_latency_in_range tq (st_clock st) Htq Hclock)
    as [latency Hlat].
  rewrite Hlat in Hrun.
  rewrite (wf_oids n ds Hwf) in Hcalls, Hall. eauto 10.
Qed.

(** X13.  Both layouts are asked the same questions: run from the same
    generator state on stores built from the same generated dataset, the
    Unified run and the Split run issue the same sequence of calls and
    leave the generator in the same state, whatever their clocks read. *)
Theorem run_same_queries fuel n grid rng ds rng' tq mix w2what what2w st1 st2 :
  gen_ds fuel n grid rng = Some (Ok (ds, rng')) →
  0 < n → 0 < tq → randbelow_in_range →
  mix !! "w2what"%string = Some w2what →
  mix !! "what2w"%string = Some what2w →
  st_rng st1 = st_rng st2 → st_calls st1 = st_calls st2 →
  st_calls (run (build ArchUnified ds) tq mix st1).2
  = st_calls (run (build ArchSplit ds) tq mix st2).2
  ∧ st_rng (run (build ArchUnified ds) tq mix st1).2
    = st_rng (run (build ArchSplit ds) tq mix st2).2.
Proof.
  intros Hwf%gen_ds_well_formed Hn Htq Hrange Hw Hh Hrng Hlog.
  destruct (run_generated n ds ArchUnified mix w2what what2w tq st1)
    as (st1' & qs1 & -> & Hs1 & Hc1 & _); [done..|].
  destruct (run_generated n ds ArchSplit mix w2what what2w tq st2)
    as (st2' & qs2 & -> & Hs2 & Hc2 & _); [done..|].
  rewrite Hrng, Hs2 in Hs1. injection Hs1 as <- Hrng'.
  simpl. by rewrite Hc1, Hc2, Hlog.
Qed.

(** X14.  What a run costs in table accesses.  A run on a non-empty
    generated dataset makes one call for each of the [n] ids and then
    exactly [total_queries] calls; one access per call on the Unified
    layout; on the Split layout one access per call and three more for
    every combined query. *)
Theorem run_access_cost fuel n grid rng ds rng' a tq mix w2what what2w st :
  gen_ds fuel n grid rng = Some (Ok (ds, rng')) →
  0 < n → 0 < tq → randbelow_in_range →
  mix !! "w2what"%string = Some w2what →
  mix !! "what2w"%string = Some what2w →
  ∃ qs,
    st_calls (run (build a ds) tq mix st).2
    = st_calls st ++ (Q_oid_to_coord <$> seqZ 0 n) ++ qs
    ∧ length qs = Z.to_nat tq
    ∧ length (st_accesses (run (build a ds) tq mix st).2)
      = (length (st_accesses st) + Z.to_nat n + Z.to_nat tq
         + match a with
           | ArchUnified => 0
           | ArchSplit => 3 * integrated_count qs
           end)%nat.
Proof.
  intros Hwf%gen_ds_well_formed Hn Htq Hrange Hw Hh.
  destruct (run_generated n ds a mix w2what what2w tq st)
    as (st' & qs & -> & _ & Hcalls & Hacc & Hlen & _); [done..|].
  exists qs. cbn [snd]. split; [by rewrite Hcalls, (wf_oids n ds Hwf)|].
  split; [done|].
  rewrite Hacc, !length_app, tables_of_length.
  rewrite list_fmap_compose, tables_of_length, !length_fmap.
  unfold oids. rewrite length_fmap, (well_formed_length n ds Hwf).
  rewrite integrated_count_precompute. destruct a; lia.
Qed.

End whole_runs.

Section run_edges.
Context `{RandomSource} `{MonotonicClock}.
Implicit Types (ds : list record) (a : arch) (mem : Mem)
  (mix : gmap string spec_float) (st : RunState).

Lemma run_latency_sign mem tq mix st latency st' :
  clock_monotone →
  run mem tq mix st = (Ok latency, st') → not_below_zero latency.
Proof.
  intros Hclock (cs & st1 & acc & mean_ns & _ & Hloop & Hmean & Hlat)%run_result.
  apply run_loop_inv in Hloop as (_ & _ & -> & _).
  rewrite Z.add_0_l in Hmean.
  apply (mean_latency_not_below_zero (elapsed (Z.to_nat tq) (st_clock st1))
           tq mean_ns); [| |done..].
  - by apply elapsed_nonneg.
  - intros Hneg. by replace (Z.to_nat tq) with 0%nat by lia.
Qed.

(** X15.  With a clock whose readings never decrease, a latency that [run]
    returns never compares below zero, on any store, mix and number of
    queries. *)
Theorem run_latency_not_below_zero mem tq mix st latency :
  clock_monotone →
  (run mem tq mix st).1 = Ok latency →
  float_lt latency float_zero = false.
Proof.
  intros Hclock Hres. destruct (run mem tq mix st) as [r st'] eqn:Hrun.
  simpl in Hres. subst r. by eapply run_latency_sign.
Qed.

Lemma run_query_boundaries mem mix1 mix2 ids coords acc st :
  mix1 !! "w2what"%string = mix2 !! "w2what"%string →
  mix1 !! "what2w"%string = mix2 !! "what2w"%string →
  run_query mem mix1 ids coords acc st = run_query mem mix2 ids coords acc st.
Proof. intros Hw Hh. unfold run_query, mix_get. by rewrite Hw, Hh. Qed.

Lemma run_loop_boundaries k mem mix1 mix2 ids coords acc st :
  mix1 !! "w2what"%string = mix2 !! "w2what"%string →
  mix1 !! "what2w"%string = mix2 !! "what2w"%string →
  run_loop k mem mix1 ids coords acc st = run_loop k mem mix2 ids coords acc st.
Proof.
  intros Hw Hh. revert acc st. induction k as [|k IH]; intros acc st; [done|].
  rewrite !run_loop_step, (run_query_boundaries mem mix1 mix2) by done.
  destruct (run_query mem mix2 ids coords acc st) as [[acc'|e] st']; [|done].
  apply IH.
Qed.

(** X16.  [run] reads the mix only at its two boundaries: two mixes that
    agree on ["w2what"] and on ["what2w"] give the same run, whatever else
    they hold.  In particular the entry ["integrated"] is never read. *)
Theorem run_reads_two_boundaries mem tq mix1 mix2 st :
  mix1 !! "w2what"%string = mix2 !! "w2what"%string →
  mix1 !! "what2w"%string = mix2 !! "what2w"%string →
  run mem tq mix1 st = run mem tq mix2 st.
Proof.
  intros Hw Hh. unfold run, run_bind. cbv zeta.
  destruct (precompute_coords mem (seqZ 0 (mem_size mem)) st)
    as [[cs|e] st1]; [|done].
  by rewrite (run_loop_boundaries _ mem mix1 mix2).
Qed.

(** X17.  On a store without objects, a run with at least one query raises
    [IndexError] at the first choice, before any call on the store. *)
Theorem run_empty_store_raises mem tq mix w2what what2w st :
  mem_size mem = 0 → 0 < tq →
  mix !! "w2what"%string = Some w2what →
  mix !! "what2w"%string = Some what2w →
  (run mem tq mix st).1 = Raise IndexError
  ∧ st_calls (run mem tq mix st).2 = st_calls st.
Proof.
  intros Hsize Htq Hw Hh. unfold run, run_bind. cbv zeta. rewrite Hsize.
  change (seqZ 0 0) with (@nil Z). cbn [precompute_coords]. unfold run_ret.
  destruct (Z.to_nat tq) as [|k] eqn:Hk; [lia|]. rewrite run_loop_step.
  destruct (run_query_not_selected mem mix [] [] 0 st IndexError)
    as [Hres Hcalls]; [by eapply next_query_empty|].
  destruct (run_query mem mix [] [] 0 st) as [r st1].
  simpl in Hres, Hcalls. by subst r.
Qed.

Lemma oid_to_coord_raises_KeyError mem i e :
  value (oid_to_coord mem i) = Raise e → e = KeyError.
Proof.
  destruct mem as [u|s]; simpl.
  - unfold Unified_oid_to_coord, dict_get.
    destruct (id_map u !! i); simpl; congruence.
  - unfold Split_oid_to_coord, dict_get.
    destruct (where_ s !! i); simpl; congruence.
Qed.

Lemma precompute_coords_raises_KeyError mem ids st e st' :
  precompute_coords mem ids st = (Raise e, st') → e = KeyError.
Proof.
  revert st. induction ids as [|i ids IH]; intros st; cbn [precompute_coords].
  - by unfold run_ret.
  - unfold run_bind at 1. unfold invoke at 1.
    destruct (value (oid_to_coord mem i)) as [c|e0] eqn:Hv.
    + unfold run_bind at 1.
      destruct (precompute_coords mem ids _) as [[cs|e1] st1] eqn:Hrec.
      * by unfold run_ret.
      * intros [= <- <-]. by eapply IH.
    + intros [= <- <-]. by eapply oid_to_coord_raises_KeyError.
Qed.

(** A precomputation that completes has found every id it was given. *)
Lemma precompute_coords_found mem ids st cs st' :
  precompute_coords mem ids st = (Ok cs, st') →
  Forall (fun i => i ∈ store_ids mem) ids.
Proof.
  revert st cs st'. induction ids as [|i ids IH]; intros st cs st';
    cbn [precompute_coords]; [by constructor|].
  unfold run_bind at 1. unfold invoke at 1.
  destruct (decide (i ∈ store_ids mem)) as [Hi|Hi];
    [|by rewrite (oid_to_coord_absent mem i Hi)].
  destruct (value (oid_to_coord mem i)) as [c|e]; [|done].
  unfold run_bind at 1.
  destruct (precompute_coords mem ids _) as [[cs1|e] st1] eqn:Hrec; [|done].
  intros _. constructor; [done|]. by eapply IH.
Qed.

(** On a store that lacks one of the ids [0 .. size-1], [run] with no
    query raises [KeyError] while it precomputes the coordinates, and does
    not reach the division. *)
Lemma run_zero_queries_raises_on_sparse_ids mem mix st i :
  0 ≤ i < mem_size mem → i ∉ store_ids mem →
  (run mem 0 mix st).1 = Raise KeyError.
Proof.
  intros Hi Hno. unfold run. cbv zeta. unfold run_bind at 1.
  destruct (precompute_coords mem (seqZ 0 (mem_size mem)) st)
    as [[cs|e] st1] eqn:Hpre.
  - apply precompute_coords_found in Hpre.
    rewrite Forall_forall in Hpre. destruct Hno. apply Hpre.
    apply elem_of_seqZ. lia.
  - simpl. f_equal. by eapply precompute_coords_raises_KeyError.
Qed.

(** X18.  Without the boundary ["w2what"] in the mix, a run with at least
    one query raises [KeyError], on any store. *)
Theorem run_missing_boundary_raises mem tq mix st :
  mix !! "w2what"%string = None → 0 < tq →
  (run mem tq mix st).1 = Raise KeyError.
Proof.
  intros Hw Htq. unfold run, run_bind. cbv zeta.
  destruct (precompute_coords mem (seqZ 0 (mem_size mem)) st)
    as [[cs|e] st1] eqn:Hpre.
  - destruct (Z.to_nat tq) as [|k] eqn:Hk; [lia|]. rewrite run_loop_step.
    destruct (run_query_not_selected mem mix (seqZ 0 (mem_size mem)) cs 0 st1
                KeyError) as [Hres _]; [by apply next_query_no_boundary|].
    destruct (run_query mem mix _ cs 0 st1) as [r st2].
    simpl in Hres. by subst r.
  - simpl. f_equal. by eapply precompute_coords_raises_KeyError.
Qed.

End run_edges.

(** * Further properties of trials and labels *)

Section trials.
Context `{RandomSource} `{MonotonicClock}.
Implicit Types (ds : list record) (mix : gmap string spec_float).


Lemma arch_of_string_known model_kind :
  model_kind = "Unified"%string ∨ model_kind = "Split"%string →
  ∃ a, arch_of_string model_kind = Ok a.
Proof. intros [-> | ->]; by eexists. Qed.


(** X20.  A trial on well-formed input returns: for a known kind, a
    dataset that is generated and not empty, a positive number of queries,
    a mix with both boundaries and a clock whose readings are numbers of
    64 bits, [one] returns a record that carries the seed and the kind it
    was given, and, when the clock never goes back, a latency that does not
    compare below zero. *)
Theorem one_returns fuel seed n tq mix w2what what2w grid model_kind clock ds rng :
  gen_ds fuel n grid (Random seed) = Some (Ok (ds, rng)) →
  model_kind = "Unified"%string ∨ model_kind = "Split"%string →
  0 < n → 0 < tq → randbelow_in_range →
  readings_in_range (2 * Z.to_nat tq) clock →
  mix !! "w2what"%string = Some w2what →
  mix !! "what2w"%string = Some what2w →
  ∃ t, one fuel seed n tq mix grid model_kind clock = Some (Ok t)
     ∧ trial_seed t = seed
     ∧ trial_arch t = model_kind
     ∧ (clock_monotone → float_lt (trial_mean_us t) float_zero = false).
Proof.
  intros Hgen Hkind Hn Htq Hrange Hclock Hw Hh.
  apply gen_ds_well_formed in Hgen as Hwf.
  destruct (arch_of_string_known _ Hkind) as [a Ha].
  unfold one. rewrite Hgen, Ha.
  destruct (run_generated n ds a mix w2what what2w tq
              (mkRunState rng clock [] [] []))
    as (st' & qs & Hrun & _); [done..|].
  destruct (mean_latency_in_range tq clock Htq Hclock) as [latency Hlat].
  cbn [st_clock] in Hrun. rewrite Hlat in Hrun.
  rewrite Hrun. eexists. split; [done|]. cbn [trial_seed trial_arch trial_mean_us].
  repeat split. intros Hmono. by eapply run_latency_sign.
Qed.

End trials.

Section labels.

Lemma lacks_app ch s1 s2 : lacks ch s1 → lacks ch s2 → lacks ch (s1 ++ s2).
Proof. induction s1 as [|c s1 IH]; simpl; [done|]. intros [??] ?. auto. Qed.

Lemma lacks_string_repeat ch c k : c ≠ ch → lacks ch (string_repeat k c).
Proof. intros Hne. induction k; simpl; auto. Qed.

Lemma lacks_X_digits d : lacks "X" (NilEmpty.string_of_uint d).
Proof. induction d; simpl; (done || (split; [discriminate|done])). Qed.

Lemma to_uint_nonnil n : N.to_uint n ≠ Decimal.Nil.
Proof. destruct n as [|p]; [done|]. apply DecimalPos.Unsigned.to_uint_nonnil. Qed.

Lemma string_of_uint_nonnil d :
  d ≠ Decimal.Nil → NilZero.string_of_uint d = NilEmpty.string_of_uint d.
Proof. by destruct d. Qed.

(** A string without the fill character is recovered from its padding. *)
Lemma unpad ch s1 s2 k1 k2 :
  lacks ch s1 → lacks ch s2 →
  (s1 ++ string_repeat k1 ch)%string = (s2 ++ string_repeat k2 ch)%string →
  s1 = s2.
Proof.
  revert s2. induction s1 as [|c1 s1 IH]; intros [|c2 s2]; simpl.
  - done.
  - intros _ [Hc _]. destruct k1; simpl; [done|]. by intros [= ->].
  - intros [Hc _] _. destruct k2; simpl; [done|]. by intros [= ->].
  - intros [_ H1] [_ H2] [= -> Heq]. f_equal. by apply IH.
Qed.

Lemma uint_of_zfill k d :
  ∃ d', NilEmpty.uint_of_string
          (string_repeat k "0" ++ NilEmpty.string_of_uint d) = Some d'
      ∧ N.of_uint d' = N.of_uint d.
Proof.
  induction k as [|k (d' & Hd & Hv)].
  - exists d. split; [apply NilEmpty.usu|done].
  - exists (Decimal.D0 d'). split; [|done].
    change (uint_of_char "0"
              (NilEmpty.uint_of_string
                 (string_repeat k "0" ++ NilEmpty.string_of_uint d))
            = Some (Decimal.D0 d')).
    by rewrite Hd.
Qed.

Lemma decode_zfill k d :
  decode_digits (string_repeat k "0" ++ NilEmpty.string_of_uint d)
  = Some (N.of_uint d).
Proof.
  unfold decode_digits. destruct (uint_of_zfill k d) as (d' & -> & <-). done.
Qed.

Lemma decode_format_07d z :
  0 ≤ z → decode_digits (format_07d z) = Some (Z.abs_N z).
Proof.
  intros Hz. unfold format_07d, zfill.
  rewrite (proj2 (Z.ltb_ge z 0) Hz).
  rewrite string_of_uint_nonnil by apply to_uint_nonnil.
  by rewrite decode_zfill, DecimalN.Unsigned.of_to.
Qed.

Lemma lacks_X_format_07d z : 0 ≤ z → lacks "X" (format_07d z).
Proof.
  intros Hz. unfold format_07d, zfill.
  rewrite (proj2 (Z.ltb_ge z 0) Hz).
  rewrite string_of_uint_nonnil by apply to_uint_nonnil.
  apply lacks_app; [by apply lacks_string_repeat|apply lacks_X_digits].
Qed.

Lemma length_string_repeat k c : String.length (string_repeat k c) = k.
Proof. induction k; simpl; auto. Qed.

Lemma length_string_app (s1 s2 : string) :
  String.length (s1 ++ s2) = (String.length s1 + String.length s2)%nat.
Proof. induction s1; simpl; auto. Qed.

Lemma feature_unfold i :
  feature i
  = String "o" (String "b" (String "j"
      (format_07d i
       ++ string_repeat (FEATURE_PAD - (3 + String.length (format_07d i))) "X"))).
Proof. reflexivity. Qed.

(** X21.  Labels: a label is at least [FEATURE_PAD] characters long and
    starts with ["obj"]; the decimal digits that follow give the id back,
    so two ids that are not negative have the same label only if they are
    the same id. *)
Theorem feature_labels i j :
  (FEATURE_PAD ≤ String.length (feature i))%nat
  ∧ String.prefix "obj" (feature i) = true
  ∧ (0 ≤ i → 0 ≤ j → feature i = feature j → i = j).
Proof.
  split; [|split].
  - rewrite feature_unfold. cbn [String.length].
    rewrite length_string_app, length_string_repeat. unfold FEATURE_PAD. lia.
  - rewrite feature_unfold.
    generalize (format_07d i
      ++ string_repeat (FEATURE_PAD - (3 + String.length (format_07d i))) "X")%string.
    by intros [|c s].
  - intros Hi Hj. rewrite !feature_unfold. intros [= Heq].
    apply unpad in Heq; [|by apply lacks_X_format_07d..].
    pose proof (decode_format_07d i Hi) as Hdi.
    rewrite Heq, decode_format_07d in Hdi by done.
    injection Hdi as Hdi. lia.
Qed.

End labels.

(** * Further invariants *)

Section inverse_tables.
Context `{RandomSource}.
Implicit Types (ds : list record) (oid : Z) (c : coord) (f : string).

(** X22.  In the stores of a generated dataset the table by id and the
    table by coordinate are inverse to each other: an id leads to a
    coordinate in the one exactly when that coordinate leads back to the id
    in the other, with the same label in the Unified store. *)
Theorem tables_mutually_inverse fuel n grid rng ds rng' oid c f :
  gen_ds fuel n grid rng = Some (Ok (ds, rng')) →
  (id_map (Unified_init ds) !! oid = Some (c, f)
   ↔ coord_map (Unified_init ds) !! c = Some (oid, f))
  ∧ (where_ (Split_init ds) !! oid = Some c
     ↔ idx (Split_init ds) !! c = Some oid).
Proof.
  intros Hwf%gen_ds_well_formed.
  pose proof (well_formed_NoDup_oids n ds Hwf) as Hids.
  pose proof (wf_coords n ds Hwf) as Hcoords.
  split; split.
  - intros Hrow%id_map_elem. by apply coord_map_row.
  - intros Hrow%coord_map_elem. by apply id_map_row.
  - intros [f' Hrow]%where_elem. by eapply idx_row.
  - intros [f' Hrow]%idx_elem. by eapply where_row.
Qed.

End inverse_tables.

(** * What a run times *)

Section timed_windows.
Context `{RandomSource} `{MonotonicClock}.
Implicit Types (mem : Mem) (mix : gmap string spec_float) (st : RunState).

(** Calls that no reading of the clock precedes are in no window. *)
Lemma window_sum_calls (ids : list Z) (tr : list event) :
  window_sum ((E_call ∘ Q_oid_to_coord <$> ids) ++ tr) = window_sum tr.
Proof. induction ids as [|i ids IH]; [done|]. by rewrite fmap_cons. Qed.

(** The windows of a sequence of timed queries: one for each query, from
    the reading before its call to the reading after it. *)
Lemma window_sum_timed_trace (qs : list query) (c : Clock) :
  window_sum (timed_trace qs c) = elapsed (length qs) c.
Proof.
  revert c. induction qs as [|q qs IH]; intros c; [done|].
  cbn [timed_trace length elapsed window_sum]. rewrite <- IH.
  by destruct qs.
Qed.

(** X23.  What a run that returns has done, effect by effect: one call of
    [oid_to_coord] for each id [0 .. size-1] with no reading of the clock,
    then, for each of the [total_queries] queries in turn, the float draw,
    the choice of the argument, a reading of the clock, the call on the
    store and a second reading.  So the clock is read exactly twice for
    each query, immediately before and immediately after its call: the
    draws and the precomputation are outside the timed window.  This holds
    on any store and for any mix. *)
Theorem run_times_each_call_alone mem tq mix st latency :
  (run mem tq mix st).1 = Ok latency →
  ∃ qs,
    length qs = Z.to_nat tq
    ∧ st_trace (run mem tq mix st).2
      = st_trace st
        ++ (E_call ∘ Q_oid_to_coord <$> seqZ 0 (mem_size mem))
        ++ timed_trace qs (st_clock st).
Proof.
  intros Hres. destruct (run mem tq mix st) as [r st'] eqn:Hrun.
  simpl in Hres. subst r. cbn [snd].
  apply run_result in Hrun as (cs & st1 & acc & mean_ns & Hpre & Hloop & _).
  apply precompute_coords_inv in Hpre as (_ & Hclock & _ & Htrace).
  apply run_loop_inv in Hloop as (qs & Hlen & _ & _ & _ & Htrace').
  exists qs. split; [done|].
  by rewrite Htrace', Htrace, Hclock, <- app_assoc.
Qed.

(** X24.  What the returned number is.  Take the effects a run that
    returns has added to the trace, and in them every window made of a
    reading of the clock, one call on the store and the next reading: the
    differences of the two readings, summed over the windows, divided by
    [total_queries] as ints, and the quotient divided by 1000 as floats,
    is the latency returned.  This holds on any store and for any mix. *)
Theorem run_returns_mean_of_timed_windows mem tq mix st latency :
  (run mem tq mix st).1 = Ok latency →
  ∃ tr mean_ns,
    st_trace (run mem tq mix st).2 = st_trace st ++ tr
    ∧ int_truediv (window_sum tr) tq = Ok mean_ns
    ∧ float_truediv_int mean_ns 1000 = Ok latency.
Proof.
  intros Hres. destruct (run mem tq mix st) as [r st'] eqn:Hrun.
  simpl in Hres. subst r. cbn [snd].
  apply run_result in Hrun
    as (cs & st1 & acc & mean_ns & Hpre & Hloop & Hmean & Hlat).
  apply precompute_coords_inv in Hpre as (_ & Hclock & _ & Htrace).
  apply run_loop_inv in Hloop as (qs & Hlen & -> & _ & _ & Htrace').
  exists ((E_call ∘ Q_oid_to_coord <$> seqZ 0 (mem_size mem))
          ++ timed_trace qs (st_clock st)), mean_ns.
  split; [by rewrite Htrace', Htrace, Hclock, <- app_assoc|].
  split; [|done].
  rewrite window_sum_calls, window_sum_timed_trace, Hlen.
  by rewrite Hclock, Z.add_0_l in Hmean.
Qed.

End timed_windows.

(** * The further properties on concrete inputs *)

Lemma step_clock_monotone : @clock_monotone step_clock.
Proof. intros c. simpl. lia. Qed.

(** [step_clock] reads 0, 100, 200, ...: its first thousand readings are
    well within 64 bits. *)
Lemma step_clock_reading (i : nat) (c : Z) :
  (@perf_counter_ns step_clock (Nat.iter i (@tick step_clock) c)).1
  = c + 100 * Z.of_nat i.
Proof.
  revert c. induction i as [|i IH]; intros c; [simpl; lia|].
  rewrite Nat.iter_succ_r, IH. unfold tick. simpl. lia.
Qed.

Lemma step_clock_in_range (k : nat) :
  (k ≤ 1000)%nat → @readings_in_range step_clock k 0.
Proof.
  intros Hk i Hi. rewrite step_clock_reading.
  change (2 ^ 63) with 9223372036854775808. lia.
Qed.

(** Without a bound on the readings the first division can fail: on a
    clock that jumps ahead by [2^1100] nanoseconds at every reading, the
    mean of the measured times is too large for a float. *)
Example example_overflow :
  (@run lcg leap_clock (build ArchSplit example_ds) 3 mix_example
        (@mkRunState lcg leap_clock example_rng 0 [] [] [])).1
  = Raise OverflowError.
Proof. vm_compute. reflexivity. Qed.

Lemma lookup_outcomes_example :
  (∃ c' f', (0, c', f') ∈ repeated_ds
          ∧ value (oid_to_coord (build ArchSplit repeated_ds) 0) = Ok c'
          ∧ value (full_lookup (build ArchSplit repeated_ds) 0) = Ok (c', f'))
  ∧ (value (oid_to_coord (build ArchSplit repeated_ds) 7) = Raise KeyError
     ∧ value (full_lookup (build ArchSplit repeated_ds) 7) = Raise KeyError)
  ∧ (∃ oid' f', (oid', (2, 2), f') ∈ repeated_ds
              ∧ value (coord_to_oid (build ArchSplit repeated_ds) (2, 2)) = Ok oid')
  ∧ value (coord_to_oid (build ArchSplit repeated_ds) (9, 9)) = Raise KeyError.
Proof.
  destruct (lookup_outcomes repeated_ds ArchSplit 0 (2, 2)) as (H1 & _ & H3 & _).
  destruct (lookup_outcomes repeated_ds ArchSplit 7 (9, 9)) as (_ & H2 & _ & H4).
  split; [|split; [|split]].
  - apply H1. apply (bool_decide_unpack _). vm_compute. exact I.
  - apply H2. apply (bool_decide_unpack _). vm_compute. exact I.
  - apply H3. apply (bool_decide_unpack _). vm_compute. exact I.
  - apply H4. apply (bool_decide_unpack _). vm_compute. exact I.
Defined.

Lemma last_row_wins_example :
  (value (oid_to_coord (build ArchSplit repeated_ds) 0) = Ok (2, 2)
   ∧ value (full_lookup (build ArchSplit repeated_ds) 0) = Ok ((2, 2), "b"%string))
  ∧ value (coord_to_oid (build ArchUnified repeated_ds) (2, 2)) = Ok 1.
Proof.
  split.
  - apply (proj1 (last_row_wins [(0, (1, 1), "a"%string)]
                    [(1, (2, 2), "c"%string)] ArchSplit 0 (2, 2) "b"%string)).
    apply (bool_decide_unpack _). vm_compute. exact I.
  - apply (proj2 (last_row_wins
                    [(0, (1, 1), "a"%string); (0, (2, 2), "b"%string)]
                    [] ArchUnified 1 (2, 2) "c"%string)).
    apply (bool_decide_unpack _). vm_compute. exact I.
Defined.

Lemma oid_to_coord_coord_to_oid_example :
  value (let! o := coord_to_oid (build ArchSplit example_ds) (2, 4) in
         oid_to_coord (build ArchSplit example_ds) o)%acc = Ok (2, 4).
Proof.
  apply (@oid_to_coord_coord_to_oid lcg 10 5 4 (@Random lcg 23)
           example_ds example_rng ArchSplit (2, 4)).
  - vm_compute. reflexivity.
  - apply (bool_decide_unpack _). vm_compute. exact I.
Defined.

Lemma gen_ds_rows_example :
  oids example_ds = seqZ 0 5
  ∧ (∃ r, example_ds !! 3%nat = Some r
        ∧ rec_oid r = 3 ∧ rec_label r = feature 3)
  ∧ mem_size (build ArchSplit example_ds) = 5.
Proof.
  destruct (@gen_ds_rows lcg 10 5 4 (@Random lcg 23) example_ds example_rng)
    as (Hids & Hrows & Hsize); [vm_compute; reflexivity|].
  split; [exact Hids|]. split.
  - eexists. split; [reflexivity|]. apply (Hrows 3%nat). reflexivity.
  - apply (Hsize ArchSplit).
Defined.

Lemma gen_ds_in_grid_example : Forall (in_grid 4) (coords_of example_ds).
Proof.
  apply (@gen_ds_in_grid lcg 10 5 4 (@Random lcg 23) example_ds example_rng).
  - exact lcg_randbelow_in_range.
  - vm_compute. reflexivity.
Defined.

Lemma gen_ds_terminates_example :
  ∃ fuel ds rng', @gen_ds sweep fuel 25 4 (@Random sweep 7) = Some (Ok (ds, rng')).
Proof.
  apply (@gen_ds_terminates sweep 25 4 (@Random sweep 7)); [lia|lia|].
  apply sweep_recurrent. lia.
Defined.

Lemma gen_ds_overfull_example :
  @gen_ds lcg 1000 5 1 (@Random lcg 23) ≠ Some (Ok (example_ds, example_rng)).
Proof.
  apply (@gen_ds_overfull lcg 1000 5 1 (@Random lcg 23) example_ds example_rng);
    [exact lcg_randbelow_in_range|lia|lia].
Defined.

Lemma gen_ds_edge_cases_example :
  @gen_ds lcg 0 0 (-5) (@Random lcg 23) = Some (Ok ([], @Random lcg 23))
  ∧ @gen_ds lcg 1 5 (-1) (@Random lcg 23) = Some (Raise ValueError).
Proof.
  split.
  - apply (proj1 (@gen_ds_edge_cases lcg 0 0 (-5) (@Random lcg 23))). lia.
  - apply (proj2 (@gen_ds_edge_cases lcg 0 5 (-1) (@Random lcg 23))); lia.
Defined.

Lemma run_returns_example :
  ∃ latency st' qs,
    @run lcg step_clock (build ArchSplit example_ds) 3 mix_example example_state
    = (Ok latency, st')
    ∧ st_calls st'
      = st_calls example_state ++ (Q_oid_to_coord <$> seqZ 0 5) ++ qs
    ∧ length qs = Z.to_nat 3
    ∧ Forall (query_in (seqZ 0 5) (coords_of example_ds)) qs.
Proof.
  apply (@run_returns lcg step_clock 10 5 4 (@Random lcg 23) example_ds
           example_rng ArchSplit 3 mix_example p_three_eighths p_three_eighths).
  - vm_compute. reflexivity.
  - lia.
  - lia.
  - exact lcg_randbelow_in_range.
  - apply step_clock_in_range. simpl. lia.
  - vm_compute. reflexivity.
  - vm_compute. reflexivity.
Defined.

Lemma run_same_queries_example :
  st_calls (@run lcg step_clock (build ArchUnified example_ds) 3 mix_example
              example_state).2
  = st_calls (@run lcg step_clock (build ArchSplit example_ds) 3 mix_example
                (@mkRunState lcg step_clock example_rng 5000 [] [] [])).2
  ∧ st_rng (@run lcg step_clock (build ArchUnified example_ds) 3 mix_example
              example_state).2
    = st_rng (@run lcg step_clock (build ArchSplit example_ds) 3 mix_example
                (@mkRunState lcg step_clock example_rng 5000 [] [] [])).2.
Proof.
  apply (@run_same_queries lcg step_clock 10 5 4 (@Random lcg 23) example_ds
           example_rng 3 mix_example p_three_eighths p_three_eighths).
  - vm_compute. reflexivity.
  - lia.
  - lia.
  - exact lcg_randbelow_in_range.
  - vm_compute. reflexivity.
  - vm_compute. reflexivity.
  - reflexivity.
  - reflexivity.
Defined.

Lemma run_access_cost_example :
  ∃ qs,
    st_calls (@run lcg step_clock (build ArchSplit example_ds) 3 mix_example
                example_state).2
    = st_calls example_state ++ (Q_oid_to_coord <$> seqZ 0 5) ++ qs
    ∧ length qs = Z.to_nat 3
    ∧ length (st_accesses (@run lcg step_clock (build ArchSplit example_ds) 3
                             mix_example example_state).2)
      = (length (st_accesses example_state) + Z.to_nat 5 + Z.to_nat 3
         + 3 * integrated_count qs)%nat.
Proof.
  apply (@run_access_cost lcg step_clock 10 5 4 (@Random lcg 23) example_ds
           example_rng ArchSplit 3 mix_example p_three_eighths p_three_eighths).
  - vm_compute. reflexivity.
  - lia.
  - lia.
  - exact lcg_randbelow_in_range.
  - vm_compute. reflexivity.
  - vm_compute. reflexivity.
Defined.

Lemma run_latency_not_below_zero_example :
  float_lt example_latency float_zero = false.
Proof.
  apply (@run_latency_not_below_zero lcg step_clock
           (build ArchSplit example_ds) 3 mix_example example_state
           example_latency).
  - exact step_clock_monotone.
  - vm_compute. reflexivity.
Defined.

Lemma run_reads_two_boundaries_example :
  @run lcg step_clock (build ArchSplit example_ds) 3 mix_example example_state
  = @run lcg step_clock (build ArchSplit example_ds) 3
      (delete "integrated"%string mix_example) example_state.
Proof.
  apply (@run_reads_two_boundaries lcg step_clock).
  - vm_compute. reflexivity.
  - vm_compute. reflexivity.
Defined.

Lemma run_empty_store_raises_example :
  (@run lcg step_clock (build ArchUnified []) 2 mix_example example_state).1
  = Raise IndexError
  ∧ st_calls (@run lcg step_clock (build ArchUnified []) 2 mix_example
                example_state).2
    = st_calls example_state.
Proof.
  apply (@run_empty_store_raises lcg step_clock (build ArchUnified []) 2
           mix_example p_three_eighths p_three_eighths example_state).
  - reflexivity.
  - lia.
  - vm_compute. reflexivity.
  - vm_compute. reflexivity.
Defined.

Lemma run_missing_boundary_raises_example :
  (@run lcg step_clock (build ArchSplit example_ds) 1
        (delete "w2what"%string mix_example) example_state).1
  = Raise KeyError.
Proof.
  apply (@run_missing_boundary_raises lcg step_clock).
  - vm_compute. reflexivity.
  - lia.
Defined.


Lemma one_returns_example :
  ∃ t, @one lcg step_clock 10 23 5 10 mix_example 4 "Split" 0 = Some (Ok t)
     ∧ trial_seed t = 23
     ∧ trial_arch t = "Split"%string
     ∧ (@clock_monotone step_clock →
        float_lt (trial_mean_us t) float_zero = false).
Proof.
  apply (@one_returns lcg step_clock 10 23 5 10 mix_example
           p_three_eighths p_three_eighths 4 "Split" 0 example_ds example_rng).
  - vm_compute. reflexivity.
  - by right.
  - lia.
  - lia.
  - exact lcg_randbelow_in_range.
  - apply step_clock_in_range. simpl. lia.
  - vm_compute. reflexivity.
  - vm_compute. reflexivity.
Defined.

Lemma feature_labels_example : feature 3 ≠ feature 4.
Proof.
  intros Heq.
  pose proof (proj2 (proj2 (feature_labels 3 4))) as Hinj.
  assert (3 = 4) as Habs by (apply Hinj; [lia|lia|exact Heq]).
  discriminate Habs.
Defined.

Lemma tables_mutually_inverse_example :
  (id_map (Unified_init example_ds) !! 3 = Some ((0, 0), feature 3)
   ↔ coord_map (Unified_init example_ds) !! (0, 0) = Some (3, feature 3))
  ∧ (where_ (Split_init example_ds) !! 3 = Some (0, 0)
     ↔ idx (Split_init example_ds) !! (0, 0) = Some 3).
Proof.
  apply (@tables_mutually_inverse lcg 10 5 4 (@Random lcg 23)
           example_ds example_rng 3 (0, 0) (feature 3)).
  vm_compute. reflexivity.
Defined.

Lemma run_times_each_call_alone_example :
  ∃ qs,
    length qs = Z.to_nat 3
    ∧ st_trace (@run lcg step_clock (build ArchSplit example_ds) 3 mix_example
                  example_state).2
      = st_trace example_state
        ++ (E_call ∘ Q_oid_to_coord
              <$> seqZ 0 (mem_size (build ArchSplit example_ds)))
        ++ @timed_trace step_clock qs (@st_clock lcg step_clock example_state).
Proof.
  apply (@run_times_each_call_alone lcg step_clock
           (build ArchSplit example_ds) 3 mix_example example_state
           example_latency).
  vm_compute. reflexivity.
Defined.

Lemma run_returns_mean_of_timed_windows_example :
  ∃ tr mean_ns,
    st_trace (@run lcg step_clock (build ArchSplit example_ds) 3 mix_example
                example_state).2
    = st_trace example_state ++ tr
    ∧ int_truediv (window_sum tr) 3 = Ok mean_ns
    ∧ float_truediv_int mean_ns 1000 = Ok example_latency.
Proof.
  apply (@run_returns_mean_of_timed_windows lcg step_clock
           (build ArchSplit example_ds) 3 mix_example example_state
           example_latency).
  vm_compute. reflexivity.
Defined.
